(** * A shallow embedding of [diagram_generator.py]

    Texts are Python [str] values whose code points lie in 0..255: a
    character is an [ascii] (eight bits), a text is a [list ascii].
    Python dictionaries keep insertion order, which decides the order of
    equal-length keys in the sort of [replace_fields]; a dictionary is
    therefore an association list with unique keys, updated in place. *)

From Stdlib Require Import Ascii String List Arith Bool Lia.
From Stdlib Require Import Permutation Sorted.
Import ListNotations.
Set Warnings "-register-all".

Definition str := list ascii.

(** Literal helper: a Rocq string literal as a [str]. *)
Definition s2l (s : string) : str := list_ascii_of_string s.

Definition chr (n : nat) : ascii := ascii_of_nat n.
Definition ord (c : ascii) : nat := nat_of_ascii c.

Definition ch_eqb (a b : ascii) : bool := Ascii.eqb a b.
Arguments ch_eqb : simpl nomatch.

(** [str.isspace] for code points 0..255; [\s] of a [str] pattern is the
    same class. *)
Definition is_space (c : ascii) : bool :=
  let n := ord c in
  ((9 <=? n) && (n <=? 13)) || ((28 <=? n) && (n <=? 32))
  || (n =? 133) || (n =? 160).

(** [str.lower] on code points 0..255: ASCII and Latin-1 capitals
    (U+00D7 is not a letter). *)
Definition py_lower (c : ascii) : ascii :=
  let n := ord c in
  if ((65 <=? n) && (n <=? 90)) || ((192 <=? n) && (n <=? 222) && negb (n =? 215))
  then chr (n + 32) else c.

(** Character comparison of an [re.IGNORECASE] literal. *)
Definition ci_eqb (a b : ascii) : bool := ch_eqb (py_lower a) (py_lower b).

(** ** [str] methods *)

Fixpoint prefixb (p s : str) : bool :=
  match p, s with
  | [], _ => true
  | a :: p', b :: s' => ch_eqb a b && prefixb p' s'
  | _ :: _, [] => false
  end.

(** [s.replace(old, new)]: leftmost, non-overlapping occurrences.  After
    an occurrence the scan skips the remaining characters of [old]. *)
Fixpoint replace_go (old new : str) (skip : nat) (s : str) : str :=
  match s with
  | [] => []
  | c :: t =>
      match skip with
      | S k => replace_go old new k t
      | O => if prefixb old s then new ++ replace_go old new (pred (length old)) t
             else c :: replace_go old new 0 t
      end
  end.

Definition py_replace (old new s : str) : str :=
  match old with
  | [] => new ++ flat_map (fun c => c :: new) s
  | _ => replace_go old new 0 s
  end.

Fixpoint lstrip (s : str) : str :=
  match s with
  | c :: t => if is_space c then lstrip t else s
  | [] => []
  end.

Definition rstrip (s : str) : str := rev (lstrip (rev s)).

(** [s.strip()] *)
Definition strip (s : str) : str := rstrip (lstrip s).

(** [s.split(sep)] for a one-character separator. *)
Fixpoint split_on (sep : ascii) (s : str) : list str :=
  match s with
  | [] => [[]]
  | c :: t =>
      let r := split_on sep t in
      if ch_eqb c sep then [] :: r
      else match r with
           | p :: ps => (c :: p) :: ps
           | [] => [[c]]
           end
  end.

(** ** Dictionaries [Dict[str, str]] *)

Definition dict := list (str * str).

Fixpoint str_eqb (a b : str) : bool :=
  match a, b with
  | [], [] => true
  | x :: a', y :: b' => ch_eqb x y && str_eqb a' b'
  | _, _ => false
  end.

(** [d[k] = v]: an existing key keeps its position. *)
Fixpoint dict_set (d : dict) (k v : str) : dict :=
  match d with
  | [] => [(k, v)]
  | (k', v') :: d' => if str_eqb k' k then (k', v) :: d' else (k', v') :: dict_set d' k v
  end.

(** [d.get(k)] *)
Fixpoint dict_get (d : dict) (k : str) : option str :=
  match d with
  | [] => None
  | (k', v') :: d' => if str_eqb k' k then Some v' else dict_get d' k
  end.

Definition dict_keys (d : dict) : list str := map fst d.

(** ** [GremlinParser] *)

(** A parsed XML element: its [description] attribute, if any (attribute
    values as [ElementTree] delivers them) and its children. *)
Inductive element : Type :=
  | Element (description : option str) (children : list element).

(** [root.iter()]: the element itself, then its subtrees in document order. *)
Fixpoint iter (e : element) : list element :=
  match e with
  | Element d cs => e :: (fix go (l : list element) : list element :=
                            match l with
                            | [] => []
                            | c :: l' => iter c ++ go l'
                            end) cs
  end.

Definition desc_attr (e : element) : option str :=
  match e with Element d _ => d end.

(** [range(0, n, 2)] *)
Fixpoint range2_go (fuel i n : nat) : list nat :=
  match fuel with
  | O => []
  | S f => if i <? n then i :: range2_go f (i + 2) n else []
  end.

Definition range2 (n : nat) : list nat := range2_go n 0 n.

(** The loop body for index [i] of [parts]. *)
Definition pair_step (parts : list str) (m : dict) (i : nat) : dict :=
  let key := strip (nth i parts []) in
  match key with
  | [] => m
  | _ => if i + 1 <? length parts
         then dict_set m key (strip (nth (i + 1) parts []))
         else dict_set m key []
  end.

(** The handling of one [description] attribute (lines 49-61). *)
Definition parse_description (raw : str) (m : dict) : dict :=
  let description := strip raw in
  match description with
  | [] => m
  | _ => let parts := split_on "|"%char description in
         fold_left (pair_step parts) (range2 (length parts)) m
  end.

Definition visit (m : dict) (e : element) : dict :=
  match desc_attr e with
  | Some d => parse_description d m
  | None => m
  end.

(** The mapping extracted from a well-formed document. *)
Definition extract (root : element) : dict := fold_left visit (iter root) [].

(** Outcome of [open] and [ET.parse] on the input file. *)
Inductive xml_source : Type :=
  | XmlMissing                    (* FileNotFoundError *)
  | XmlMalformed                  (* ET.ParseError *)
  | XmlUnreadable                 (* any other error of open or of reading the text:
                                     IsADirectoryError, PermissionError,
                                     UnicodeDecodeError, ... *)
  | XmlTree (root : element).

(** A computation that returns a value or raises an exception that the
    function does not catch. *)
Inductive raises (A : Type) : Type :=
  | Ret (a : A)
  | Raise.

Arguments Ret {A} a.
Arguments Raise {A}.

(** [GremlinParser._parse]: [None] after a logged error; the errors it
    does not catch propagate. *)
Definition parse (src : xml_source) : raises (option dict) :=
  match src with
  | XmlMissing => Ret None
  | XmlMalformed => Ret None
  | XmlUnreadable => Raise
  | XmlTree root => Ret (Some (extract root))
  end.

(** ** [xml.sax.saxutils.escape] and [unescape] (default [entities]) *)

Definition escape (d : str) : str :=
  py_replace (s2l "<") (s2l "&lt;")
    (py_replace (s2l ">") (s2l "&gt;") (py_replace (s2l "&") (s2l "&amp;") d)).

Definition unescape (d : str) : str :=
  py_replace (s2l "&amp;") (s2l "&")
    (py_replace (s2l "&gt;") (s2l ">") (py_replace (s2l "&lt;") (s2l "<") d)).

(** [SvgTemplate._sanitize_string_for_svg] *)
Definition sanitize (v : str) : str := escape (unescape v).

(** ** The placeholder pattern [>\s*KEY\s*<] under [re.IGNORECASE]

    [re.escape(key)] makes every character of the key a literal.  The
    matcher follows the backtracking order of [sre]: the first [\s*] is
    tried greedily, from the longest whitespace run down to none; the
    second [\s*] is greedy and giving characters back to it cannot help,
    since a whitespace character is never [<]. *)

Fixpoint ci_prefixb (p s : str) : bool :=
  match p, s with
  | [], _ => true
  | a :: p', b :: s' => ci_eqb a b && ci_prefixb p' s'
  | _ :: _, [] => false
  end.

Fixpoint lead_spaces (s : str) : nat :=
  match s with
  | c :: t => if is_space c then S (lead_spaces t) else O
  | [] => O
  end.

(** Key, [\s*] and [<] at the front of [u]: the length they span. *)
Definition after_key (key u : str) : option nat :=
  if ci_prefixb key u then
    let u' := skipn (length key) u in
    let w := lead_spaces u' in
    match nth_error u' w with
    | Some c => if ch_eqb c "<"%char then Some (length key + w + 1) else None
    | None => None
    end
  else None.

(** The first [\s*] takes [i] characters, then [i-1], ..., [0]. *)
Fixpoint try_lead (key t : str) (i : nat) : option nat :=
  match after_key key (skipn i t) with
  | Some n => Some (i + n)
  | None => match i with
            | O => None
            | S j => try_lead key t j
            end
  end.

(** A match of the pattern starting at the front of [s]: its length. *)
Definition match_at (key s : str) : option nat :=
  match s with
  | c :: t => if ch_eqb c ">"%char then
                match try_lead key t (lead_spaces t) with
                | Some n => Some (S n)
                | None => None
                end
              else None
  | [] => None
  end.

(** [pattern.search(s) is not None] *)
Fixpoint search (key s : str) : bool :=
  match s with
  | [] => false
  | _ :: t => match match_at key s with
              | Some _ => true
              | None => search key t
              end
  end.

(** ** The replacement string of [pattern.sub]

    [re.sub] reads its replacement as a template ([re._parser.parse_template],
    Python 3.12): [\g<0>] and octal escapes are expanded, [\n], [\t] and the
    other character escapes are decoded, a group reference other than 0
    (the pattern has no groups) or a backslash before another ASCII letter
    raises [re.error].  [None] is that exception. *)

Inductive titem : Type :=
  | TLit (c : ascii)        (* a literal character *)
  | TWhole.                 (* [\g<0>]: the matched text *)

Definition is_digit (c : ascii) : bool := (48 <=? ord c) && (ord c <=? 57).
Definition is_oct (c : ascii) : bool := (48 <=? ord c) && (ord c <=? 55).
Definition is_ascii_letter (c : ascii) : bool :=
  ((65 <=? ord c) && (ord c <=? 90)) || ((97 <=? ord c) && (ord c <=? 122)).

Definition oct_value (ds : list ascii) : nat :=
  fold_left (fun acc d => acc * 8 + (ord d - 48)) ds 0.

(** The [ESCAPES] table of the template parser. *)
Definition escape_char (c : ascii) : option ascii :=
  match ord c with
  | 97 => Some (chr 7)      (* \a *)
  | 98 => Some (chr 8)      (* \b *)
  | 102 => Some (chr 12)    (* \f *)
  | 110 => Some (chr 10)    (* \n *)
  | 114 => Some (chr 13)    (* \r *)
  | 116 => Some (chr 9)     (* \t *)
  | 118 => Some (chr 11)    (* \v *)
  | 92 => Some (chr 92)     (* \\ *)
  | _ => None
  end.

(** [s.getuntil(">")]: the text before the first [>] and the text after. *)
Fixpoint get_until (s : str) : option (str * str) :=
  match s with
  | [] => None
  | c :: t => if ch_eqb c ">"%char then Some ([], t)
              else match get_until t with
                   | Some (a, b) => Some (c :: a, b)
                   | None => None
                   end
  end.

(** A [\g<name>] that denotes group 0: a non-empty ASCII-decimal zero. *)
Definition group_zero (name : str) : bool :=
  match name with
  | [] => false
  | _ => forallb (fun c => ch_eqb c "0"%char) name
  end.

Definition cons_opt {A} (x : A) (o : option (list A)) : option (list A) :=
  match o with Some l => Some (x :: l) | None => None end.

Fixpoint parse_template_go (fuel : nat) (s : str) : option (list titem) :=
  match fuel with
  | O => None
  | S f =>
    match s with
    | [] => Some []
    | c :: t =>
      if negb (ch_eqb c "\"%char) then cons_opt (TLit c) (parse_template_go f t)
      else
      match t with
      | [] => None                                  (* bad escape (end of pattern) *)
      | d :: u =>
        if ch_eqb d "g"%char then
          match u with
          | lt :: v =>
              if ch_eqb lt "<"%char then
                match get_until v with
                | Some (name, w) =>
                    if group_zero name then cons_opt TWhole (parse_template_go f w)
                    else None                       (* unknown group *)
                | None => None                      (* missing > *)
                end
              else None                             (* missing < *)
          | [] => None
          end
        else if ch_eqb d "0"%char then
          match u with
          | e1 :: u1 =>
              if is_oct e1 then
                match u1 with
                | e2 :: u2 =>
                    if is_oct e2
                    then cons_opt (TLit (chr (oct_value [d; e1; e2]))) (parse_template_go f u2)
                    else cons_opt (TLit (chr (oct_value [d; e1]))) (parse_template_go f u1)
                | [] => cons_opt (TLit (chr (oct_value [d; e1]))) (parse_template_go f u1)
                end
              else cons_opt (TLit (chr 0)) (parse_template_go f u)
          | [] => cons_opt (TLit (chr 0)) (parse_template_go f u)
          end
        else if is_digit d then
          (* three octal digits form a character; anything else is a
             reference to a group that does not exist *)
          match u with
          | e1 :: e2 :: u2 =>
              if is_oct d && is_oct e1 && is_oct e2 then
                let n := oct_value [d; e1; e2] in
                if 255 <? n then None else cons_opt (TLit (chr n)) (parse_template_go f u2)
              else None
          | _ => None
          end
        else
          match escape_char d with
          | Some e => cons_opt (TLit e) (parse_template_go f u)
          | None => if is_ascii_letter d then None      (* bad escape *)
                    else cons_opt (TLit c) (cons_opt (TLit d) (parse_template_go f u))
          end
      end
    end
  end.

Definition parse_template (s : str) : option (list titem) :=
  parse_template_go (S (length s)) s.

Definition expand (tm : list titem) (matched : str) : str :=
  flat_map (fun it => match it with TLit c => [c] | TWhole => matched end) tm.

(** [pattern.sub(tm, s)] with a parsed template: every match, left to
    right and non-overlapping, is replaced. *)
Fixpoint sub_go (key : str) (tm : list titem) (skip : nat) (s : str) : str :=
  match s with
  | [] => []
  | c :: t =>
      match skip with
      | S k => sub_go key tm k t
      | O => match match_at key s with
             | Some n => expand tm (firstn n s) ++ sub_go key tm (pred n) t
             | None => c :: sub_go key tm 0 t
             end
      end
  end.

Definition sub (key repl s : str) : option str :=
  match parse_template repl with
  | Some tm => Some (sub_go key tm 0 s)
  | None => None
  end.

(** ** [SvgTemplate.replace_fields] *)

(** [sorted(keys, key=len, reverse=True)]: longest first, and keys of equal
    length keep their dictionary order (Python's sort is stable, also in
    reverse). *)
Fixpoint insert_by_len (k : str) (l : list str) : list str :=
  match l with
  | [] => [k]
  | k' :: l' => if length k <? length k' then k' :: insert_by_len k l' else k :: l
  end.

Fixpoint sort_by_len_desc (l : list str) : list str :=
  match l with
  | [] => []
  | k :: l' => insert_by_len k (sort_by_len_desc l')
  end.

(** One iteration of the loop over the keys (lines 113-126). *)
Definition replace_key (mappings : dict) (raw : str) (key : str) : option str :=
  let value := match dict_get mappings key with Some v => v | None => [] end in
  let replacement_string := [">"%char] ++ sanitize value ++ ["<"%char] in
  if search key raw then sub key replacement_string raw
  else Some raw.

Fixpoint replace_keys (mappings : dict) (keys : list str) (raw : str) : option str :=
  match keys with
  | [] => Some raw
  | k :: ks => match replace_key mappings raw k with
               | Some raw' => replace_keys mappings ks raw'
               | None => None
               end
  end.

(** [os.path.basename] (POSIX). *)
Fixpoint basename_go (acc s : str) : str :=
  match s with
  | [] => rev acc
  | c :: t => if ch_eqb c "/"%char then basename_go [] t else basename_go (c :: acc) t
  end.

Definition basename (p : str) : str := basename_go [] p.

(** [os.path.splitext(p)[0]]: the text before the last dot, unless all
    the characters before that dot are dots. *)
Fixpoint last_dot_go (i : nat) (s : str) (best : option nat) : option nat :=
  match s with
  | [] => best
  | c :: t => last_dot_go (S i) t (if ch_eqb c "."%char then Some i else best)
  end.

Definition splitext_root (p : str) : str :=
  match last_dot_go 0 p None with
  | Some d => if existsb (fun c => negb (ch_eqb c "."%char)) (firstn d p)
              then firstn d p else p
  | None => p
  end.

Definition template_name_of (xml_filename : str) : str :=
  splitext_root (basename xml_filename).

(** The two fixed tokens (lines 101-104). *)
Definition replace_fixed (raw xml_filename current_date : str) : str :=
  py_replace (s2l "CURRENT_DATE") current_date
    (py_replace (s2l "TEMPLATE_NAME") (template_name_of xml_filename) raw).

(** [template.replace_fields(mappings, xml_filename)] on a template whose
    text is [raw]; [current_date] is [datetime.now().strftime("%d/%m/%Y")].
    [None] is the [re.error] raised by [pattern.sub]. *)
Definition replace_fields (raw : str) (mappings : dict) (xml_filename current_date : str)
  : option str :=
  replace_keys mappings (sort_by_len_desc (dict_keys mappings))
    (replace_fixed raw xml_filename current_date).

(** [%d/%m/%Y] for a date with a four-digit year. *)
Definition digit (n : nat) : ascii := chr (48 + n).
Definition format_date (d m y : nat) : str :=
  [digit (d / 10); digit (d mod 10); "/"%char; digit (m / 10); digit (m mod 10); "/"%char;
   digit (y / 1000); digit (y / 100 mod 10); digit (y / 10 mod 10); digit (y mod 10)].

(** ** The extraction rule in the terms of the specification

    Tokens are taken two by two: a key and the value after it, or the
    empty string after a last, unpaired key; a pair with an empty key adds
    nothing. *)
Fixpoint pair_up (ts : list str) : list (str * str) :=
  match ts with
  | [] => []
  | [k] => [(k, [])]
  | k :: v :: r => (k, v) :: pair_up r
  end.

Definition record_pair (m : dict) (kv : str * str) : dict :=
  match fst kv with
  | [] => m
  | _ => dict_set m (fst kv) (snd kv)
  end.

Definition set_pair (m : dict) (kv : str * str) : dict := dict_set m (fst kv) (snd kv).

Definition is_empty (s : str) : bool := match s with [] => true | _ => false end.

(** The trimmed tokens of a [description]. *)
Definition description_tokens (raw : str) : list str :=
  map strip (split_on "|"%char (strip raw)).

(** The pairs with a non-empty key an element contributes, in order. *)
Definition element_entries (e : element) : list (str * str) :=
  match desc_attr e with
  | Some d => filter (fun kv => negb (is_empty (fst kv))) (pair_up (description_tokens d))
  | None => []
  end.

(** All of them, in document order. *)
Definition document_entries (root : element) : list (str * str) :=
  flat_map element_entries (iter root).

(** The value of the last occurrence of [k]. *)
Definition last_value (k : str) (l : list (str * str)) : option str :=
  match find (fun kv => str_eqb (fst kv) k) (rev l) with
  | Some (_, v) => Some v
  | None => None
  end.

(** ** Occurrences of a literal text *)

(** [sep.join(ps)] *)
Fixpoint join (sep : str) (ps : list str) : str :=
  match ps with
  | [] => []
  | [p] => p
  | p :: ps' => p ++ sep ++ join sep ps'
  end.

(** [old in s] *)
Fixpoint contains (old s : str) : bool :=
  prefixb old s || match s with [] => false | _ :: t => contains old t end.

(** No proper non-empty suffix of [old] is also a prefix of it, so two
    occurrences of [old] never overlap. *)
Definition border_free (old : str) : bool :=
  forallb (fun i => negb (prefixb (skipn i old) old)) (seq 1 (length old - 1)).

(** The pieces between the occurrences of a token once each text [x]
    inserted between two groups is glued to its neighbours: [attach x qs ps]
    splits [join sep qs ++ x ++ join sep ps] at [sep], and [glue x qss]
    splits [x.join(sep.join(qs) for qs in qss)] at [sep]. *)
Fixpoint attach (x : str) (qs ps : list str) : list str :=
  match qs with
  | [] => match ps with [] => [x] | p :: ps' => (x ++ p) :: ps' end
  | [q] => match ps with [] => [q ++ x] | p :: ps' => (q ++ x ++ p) :: ps' end
  | q :: qs' => q :: attach x qs' ps
  end.

Fixpoint glue (x : str) (qss : list (list str)) : list str :=
  match qss with
  | [] => []
  | [qs] => qs
  | qs :: rest => attach x qs (glue x rest)
  end.

(** ** Conditions on keys and values *)

Definition no_angle (s : str) : Prop := forall c, In c s -> c <> "<"%char /\ c <> ">"%char.
Definition no_backslash (s : str) : Prop := forall c, In c s -> c <> "\"%char.

(** The placeholder of a key: an element whose text is the key. *)
Definition placeholder (k : str) : str := [">"%char] ++ k ++ ["<"%char].

(** What a keyed pass writes for a value. *)
Definition filled (v : str) : str := placeholder (sanitize v).

(** [c in "<>"]: the characters that delimit markup. *)
Definition is_angle (c : ascii) : bool := ch_eqb c "<"%char || ch_eqb c ">"%char.

(** The markup of a text: its characters from each [<] to the next [>],
    both included. *)
Fixpoint markup_go (in_tag : bool) (s : str) : str :=
  match s with
  | [] => []
  | c :: t =>
      if ch_eqb c "<"%char then c :: markup_go true t
      else if ch_eqb c ">"%char then c :: markup_go false t
      else if in_tag then c :: markup_go true t
      else markup_go false t
  end.

Definition markup (s : str) : str := markup_go false s.

(** ** [pathlib.PurePosixPath] (Python 3.12), for [main] (lines 205-213) *)

(** The parts after the root: the pieces of [p.split('/')] other than the
    empty ones and [.]. *)
Definition path_parts (p : str) : list str :=
  filter (fun x => negb (is_empty x) && negb (str_eqb x (s2l "."))) (split_on "/"%char p).

(** [posixpath.splitroot(p)[1]]: two leading slashes are kept, one or three
    and more give one. *)
Definition path_root (p : str) : str :=
  match p with
  | c1 :: c2 :: r =>
      if ch_eqb c1 "/"%char then
        if ch_eqb c2 "/"%char then
          match r with
          | c3 :: _ => if ch_eqb c3 "/"%char then [c1] else [c1; c2]
          | [] => [c1; c2]
          end
        else [c1]
      else []
  | [c1] => if ch_eqb c1 "/"%char then [c1] else []
  | [] => []
  end.

(** [str(path)] from its root and parts; the empty path reads [.]. *)
Definition path_str (root : str) (parts : list str) : str :=
  match root ++ join (s2l "/") parts with
  | [] => s2l "."
  | s => s
  end.

(** [PurePath.name]: the last part, or the empty string. *)
Definition path_name (p : str) : str := last (path_parts p) [].

(** [PurePath.suffix]: from the last dot of the name, unless that dot is
    its first or its last character. *)
Definition path_suffix (name : str) : str :=
  match last_dot_go 0 name None with
  | Some i => if (0 <? i) && (i <? length name - 1) then skipn i name else []
  | None => []
  end.

(** The name of [PurePath.with_suffix(suffix)]; [None] is its [ValueError]
    (an invalid suffix, or a path with an empty name). *)
Definition with_suffix_name (name suffix : str) : option str :=
  if existsb (fun c => ch_eqb c "/"%char) suffix then None
  else if (negb (is_empty suffix) && negb (prefixb (s2l ".") suffix))
          || str_eqb suffix (s2l ".") then None
  else if is_empty name then None
  else let old := path_suffix name in
       if is_empty old then Some (name ++ suffix)
       else Some (firstn (length name - length old) name ++ suffix).

(** [posixpath.join(a, b)], which [PurePath] applies to the segments
    of [a / b] before parsing them. *)
Definition posix_join (a b : str) : str :=
  if prefixb (s2l "/") b then b
  else if is_empty a || ch_eqb (last a " "%char) "/"%char then a ++ b
  else a ++ s2l "/" ++ b.

(** [output_dir / xml_file.with_suffix('.pdf').name] in [main], as the
    root and parts of the resulting path, for an accepted argument list;
    [None] is the [ValueError] of [with_suffix], raised before any [try].
    [output_dir] is [Path('.')] or [Path(sys.argv[3])]. *)
Definition output_path (argv : list str) : option (str * list str) :=
  let xml_file := nth 1 argv [] in
  let output_dir := if Nat.eqb (length argv) 4 then nth 3 argv [] else s2l "." in
  match with_suffix_name (path_name xml_file) (s2l ".pdf") with
  | Some name => let p := posix_join output_dir name in Some (path_root p, path_parts p)
  | None => None
  end.

(** [str(output_file)] *)
Definition output_file (argv : list str) : option str :=
  match output_path argv with
  | Some (root, parts) => Some (path_str root parts)
  | None => None
  end.

(** [str(output_path.with_suffix('.temp.svg'))] in [save_pdf], for the
    path of root [root] and parts [parts]; [None] is a [ValueError]. *)
Definition temp_svg_path (root : str) (parts : list str) : option str :=
  match with_suffix_name (last parts []) (s2l ".temp.svg") with
  | Some name => Some (path_str root (removelast parts ++ [name]))
  | None => None
  end.

(** [str(Path(p))] *)
Definition path_to_str (p : str) : str := path_str (path_root p) (path_parts p).

(** ** [main]

    The file system and the browser are the environment: what reading the
    XML file and the SVG file gives, whether creating the output directory
    succeeds, and whether [save_pdf] succeeds on a rendered text (any
    exception it raises, such as a failed browser start or unknown SVG
    dimensions, is [false]). *)
Record env : Type := {
  xml_in : xml_source;
  svg_in : option str;            (* [None]: any error of reading it, all caught *)
  mkdir_ok : bool;                (* [output_dir.mkdir(parents=True, exist_ok=True)]
                                     does not raise (e.g. FileExistsError);
                                     consulted with an output directory only *)
  pdf_ok : str -> bool;
  today : str                     (* [datetime.now().strftime("%d/%m/%Y")] *)
}.

(** The run: the process exit status and the SVG text printed to the PDF
    file, when one is written. *)
Record outcome : Type := {
  exit_status : nat;
  pdf_written : option str;
  template_read : bool
}.

(** [sys.exit(1)], or an exception no [try] catches: Python exits with
    status 1. *)
Definition exit_one : outcome :=
  {| exit_status := 1; pdf_written := None; template_read := false |}.

Definition main (argv : list str) (E : env) : outcome :=
  if negb (Nat.eqb (length argv) 3 || Nat.eqb (length argv) 4)
  then exit_one                                         (* sys.exit(1) *)
  else
    let xml_file := nth 1 argv [] in
    if Nat.eqb (length argv) 4 && negb (mkdir_ok E) then exit_one   (* mkdir raises *)
    else
    match output_file argv with
    | None => exit_one                                  (* with_suffix raises *)
    | Some _ =>
        match parse (xml_in E) with
        | Raise => exit_one
        | Ret None => {| exit_status := 0; pdf_written := None; template_read := false |}
        | Ret (Some mappings) =>
            match svg_in E with
            | None => {| exit_status := 0; pdf_written := None; template_read := false |}
            | Some raw =>
                match replace_fields raw mappings (path_to_str xml_file) (today E) with
                | None => {| exit_status := 0; pdf_written := None; template_read := true |}
                | Some out =>
                    if pdf_ok E out
                    then {| exit_status := 0; pdf_written := Some out; template_read := true |}
                    else {| exit_status := 0; pdf_written := None; template_read := true |}
                end
            end
        end
    end.

(** * Facts about the embedding *)

(** ** Characters *)

Lemma ch_eqb_true (a b : ascii) : ch_eqb a b = true <-> a = b.
Proof. apply Ascii.eqb_eq. Qed.

Lemma ch_eqb_refl (a : ascii) : ch_eqb a a = true.
Proof. apply Ascii.eqb_refl. Qed.

Lemma ch_eqb_sym (a b : ascii) : ch_eqb a b = ch_eqb b a.
Proof. apply Ascii.eqb_sym. Qed.

Lemma ch_eqb_false (a b : ascii) : ch_eqb a b = false <-> a <> b.
Proof.
  split; intro H.
  - intro E; subst; rewrite ch_eqb_refl in H; discriminate.
  - destruct (ch_eqb a b) eqn:E; [apply ch_eqb_true in E; contradiction | reflexivity].
Qed.

(** The three characters [escape] rewrites, and all the others. *)
Lemma xml_char_cases (c : ascii) :
  c = "&"%char \/ c = "<"%char \/ c = ">"%char \/
  (ch_eqb "&" c = false /\ ch_eqb "<" c = false /\ ch_eqb ">" c = false).
Proof.
  destruct (ch_eqb "&" c) eqn:E1; [left; symmetry; apply ch_eqb_true; exact E1|].
  destruct (ch_eqb "<" c) eqn:E2; [right; left; symmetry; apply ch_eqb_true; exact E2|].
  destruct (ch_eqb ">" c) eqn:E3; [right; right; left; symmetry; apply ch_eqb_true; exact E3|].
  right; right; right; auto.
Qed.

(** ** [str.replace] *)

Lemma replace_go_skip (old new l y : str) :
  replace_go old new (length l) (l ++ y) = replace_go old new 0 y.
Proof. induction l; simpl; auto. Qed.

(** With a one-character [old], [replace] maps every character. *)
Lemma py_replace_char (a : ascii) (new s : str) :
  py_replace [a] new s = flat_map (fun c => if ch_eqb a c then new else [c]) s.
Proof.
  unfold py_replace; induction s as [|c s IH]; simpl; auto.
  rewrite andb_true_r; destruct (ch_eqb a c); simpl; rewrite IH; reflexivity.
Qed.

(** No occurrence of [old] can start with a character other than its first. *)
Lemma replace_go_no_head (o : ascii) (os new s : str) :
  (forall c, In c s -> c <> o) -> replace_go (o :: os) new 0 s = s.
Proof.
  induction s as [|c s IH]; intro H; simpl; auto.
  assert (E : ch_eqb o c = false) by (apply ch_eqb_false; intro; subst; apply (H c); simpl; auto).
  rewrite E; simpl; rewrite IH; auto.
  intros x Hx; apply H; simpl; auto.
Qed.

(** ** [escape] and [unescape] *)

Definition esc_char (c : ascii) : str :=
  if ch_eqb "&" c then s2l "&amp;"
  else if ch_eqb "<" c then s2l "&lt;"
  else if ch_eqb ">" c then s2l "&gt;"
  else [c].

Lemma escape_flat_map (s : str) : escape s = flat_map esc_char s.
Proof.
  unfold escape; cbn [s2l list_ascii_of_string]; rewrite !py_replace_char.
  induction s as [|c s IH]; simpl; auto.
  destruct (xml_char_cases c) as [->|[->|[->|(E1 & E2 & E3)]]]; simpl; try rewrite IH; auto.
  unfold esc_char at 1; rewrite E1; simpl; rewrite E3; simpl; rewrite E2; simpl.
  rewrite IH; reflexivity.
Qed.

(** After the first pass of [unescape] ... *)
Definition esc_char1 (c : ascii) : str :=
  if ch_eqb "&" c then s2l "&amp;" else if ch_eqb ">" c then s2l "&gt;" else [c].
(** ... and after the second. *)
Definition esc_char2 (c : ascii) : str :=
  if ch_eqb "&" c then s2l "&amp;" else [c].

Lemma unescape_pass1 (s : str) :
  py_replace (s2l "&lt;") (s2l "<") (flat_map esc_char s) = flat_map esc_char1 s.
Proof.
  unfold py_replace; simpl.
  induction s as [|c s IH]; simpl; auto.
  destruct (xml_char_cases c) as [->|[->|[->|(E1 & E2 & E3)]]]; simpl; try rewrite IH; auto.
  unfold esc_char at 1; unfold esc_char1 at 1; rewrite E1, E2, E3; simpl; rewrite E1; simpl; rewrite IH; auto.
Qed.

Lemma unescape_pass2 (s : str) :
  py_replace (s2l "&gt;") (s2l ">") (flat_map esc_char1 s) = flat_map esc_char2 s.
Proof.
  unfold py_replace; simpl.
  induction s as [|c s IH]; simpl; auto.
  destruct (xml_char_cases c) as [->|[->|[->|(E1 & E2 & E3)]]]; simpl; try rewrite IH; auto.
  unfold esc_char1 at 1; unfold esc_char2 at 1; rewrite E1, E3; simpl; rewrite E1; simpl; rewrite IH; auto.
Qed.

Lemma unescape_pass3 (s : str) :
  py_replace (s2l "&amp;") (s2l "&") (flat_map esc_char2 s) = s.
Proof.
  unfold py_replace; simpl.
  induction s as [|c s IH]; simpl; auto.
  destruct (xml_char_cases c) as [->|[->|[->|(E1 & E2 & E3)]]]; simpl; try rewrite IH; auto.
  unfold esc_char2 at 1; rewrite E1; simpl; rewrite E1; simpl; rewrite IH; auto.
Qed.

Lemma unescape_escape (s : str) : unescape (escape s) = s.
Proof.
  unfold unescape; rewrite escape_flat_map, unescape_pass1, unescape_pass2.
  apply unescape_pass3.
Qed.

Lemma esc_char_no_angle (c x : ascii) :
  In x (esc_char c) -> x <> "<"%char /\ x <> ">"%char.
Proof.
  unfold esc_char.
  destruct (xml_char_cases c) as [->|[->|[->|(E1 & E2 & E3)]]]; simpl;
    [intuition (subst; discriminate) .. |].
  rewrite E1, E2, E3; simpl; intros [<-|[]].
  split; intro; subst; discriminate.
Qed.

Lemma escape_no_angle (s : str) (x : ascii) :
  In x (escape s) -> x <> "<"%char /\ x <> ">"%char.
Proof.
  rewrite escape_flat_map; intro H; apply in_flat_map in H as (c & _ & Hc).
  exact (esc_char_no_angle c x Hc).
Qed.

Lemma escape_plain (s : str) :
  (forall c, In c s -> c <> "&"%char /\ c <> "<"%char /\ c <> ">"%char) -> escape s = s.
Proof.
  rewrite escape_flat_map; induction s as [|c s IH]; intro H; simpl; auto.
  destruct (H c) as (N1 & N2 & N3); [simpl; auto|].
  unfold esc_char at 1.
  rewrite (proj2 (ch_eqb_false _ _) (not_eq_sym N1)),
          (proj2 (ch_eqb_false _ _) (not_eq_sym N2)),
          (proj2 (ch_eqb_false _ _) (not_eq_sym N3)); simpl.
  rewrite IH; auto. intros x Hx; apply H; simpl; auto.
Qed.

Lemma unescape_plain (s : str) :
  (forall c, In c s -> c <> "&"%char) -> unescape s = s.
Proof.
  intro H; unfold unescape, py_replace; simpl.
  do 3 rewrite (replace_go_no_head _ _ _ s H); reflexivity.
Qed.

Lemma sanitize_idempotent (s : str) : sanitize (sanitize s) = sanitize s.
Proof. unfold sanitize at 1 2; rewrite unescape_escape; reflexivity. Qed.

(** ** The description loop *)

Lemma range2_go_done (f i n : nat) : n <= i -> range2_go f i n = [].
Proof.
  intro H; destruct f; simpl; auto.
  destruct (i <? n) eqn:E; auto; apply Nat.ltb_lt in E; lia.
Qed.

(** The index loop of [_parse] over [parts], from an even position. *)
Lemma loop_pair_up (f : nat) (pre parts : list str) (m : dict) :
  length parts <= f ->
  fold_left (pair_step (pre ++ parts)) (range2_go f (length pre) (length pre + length parts)) m
  = fold_left record_pair (pair_up (map strip parts)) m.
Proof.
  revert pre parts m; induction f as [|f IH]; intros pre parts m Hf.
  - destruct parts; simpl in *; [reflexivity | lia].
  - destruct parts as [|x [|y r]].
    + simpl; rewrite Nat.add_0_r, Nat.ltb_irrefl; reflexivity.
    + simpl.
      replace (length pre <? length pre + 1) with true by (symmetry; apply Nat.ltb_lt; lia).
      rewrite range2_go_done by lia; simpl.
      unfold pair_step, record_pair; simpl.
      rewrite app_nth2, Nat.sub_diag by lia; simpl.
      rewrite length_app; simpl.
      replace (length pre + 1 <? length pre + 1) with false by (symmetry; apply Nat.ltb_ge; lia).
      destruct (strip x); reflexivity.
    + simpl in Hf |- *.
      replace (length pre <? length pre + S (S (length r))) with true
        by (symmetry; apply Nat.ltb_lt; lia).
      simpl.
      specialize (IH (pre ++ [x; y]) r
                    (pair_step (pre ++ x :: y :: r) m (length pre)) ltac:(lia)).
      rewrite <- !app_assoc in IH; simpl in IH.
      rewrite length_app in IH; simpl in IH.
      replace (length pre + 2) with (length pre + 2) in IH by reflexivity.
      replace (length pre + S (S (length r))) with (length pre + 2 + length r) by lia.
      rewrite IH.
      unfold pair_step, record_pair; simpl.
      rewrite app_nth2, Nat.sub_diag by lia; simpl.
      rewrite app_nth2 by lia.
      replace (length pre + 1 - length pre) with 1 by lia; simpl.
      rewrite length_app; simpl.
      replace (length pre + 1 <? length pre + S (S (length r))) with true
        by (symmetry; apply Nat.ltb_lt; lia).
      destruct (strip x); reflexivity.
Qed.

Lemma strip_nil : strip [] = [].
Proof. reflexivity. Qed.

(** [_parse] on one description follows the pairing rule. *)
Lemma parse_description_pairs (raw : str) (m : dict) :
  parse_description raw m = fold_left record_pair (pair_up (description_tokens raw)) m.
Proof.
  unfold parse_description, description_tokens.
  destruct (strip raw) as [|c s] eqn:E.
  - reflexivity.
  - unfold range2.
    apply (loop_pair_up (length (split_on "|" (c :: s))) [] (split_on "|" (c :: s)) m).
    lia.
Qed.

Lemma fold_record_pair (l : list (str * str)) (m : dict) :
  fold_left record_pair l m
  = fold_left set_pair (filter (fun kv => negb (is_empty (fst kv))) l) m.
Proof.
  revert m; induction l as [|[k v] l IH]; intro m; simpl; auto.
  destruct k; simpl; apply IH.
Qed.

Lemma parse_description_entries (raw : str) (m : dict) :
  parse_description raw m
  = fold_left set_pair (filter (fun kv => negb (is_empty (fst kv)))
                          (pair_up (description_tokens raw))) m.
Proof. rewrite parse_description_pairs; apply fold_record_pair. Qed.

Lemma fold_left_flat_map {A B C} (f : A -> B -> A) (g : C -> list B) (l : list C) (a : A) :
  fold_left f (flat_map g l) a = fold_left (fun a x => fold_left f (g x) a) l a.
Proof.
  revert a; induction l as [|x l IH]; intro a; simpl; auto.
  rewrite fold_left_app; apply IH.
Qed.

Lemma extract_entries (root : element) :
  extract root = fold_left set_pair (document_entries root) [].
Proof.
  unfold extract, document_entries; rewrite fold_left_flat_map.
  generalize (@nil (str * str)) as m; induction (iter root) as [|e l IH]; intro m; simpl; auto.
  rewrite <- IH; f_equal.
  unfold visit, element_entries; destruct (desc_attr e); auto.
  apply parse_description_entries.
Qed.

(** ** Dictionaries *)

Lemma str_eqb_true (a b : str) : str_eqb a b = true <-> a = b.
Proof.
  revert b; induction a as [|x a IH]; intros [|y b]; simpl; split; intro H;
    try discriminate; auto.
  - apply andb_true_iff in H as [H1 H2]; apply ch_eqb_true in H1; apply IH in H2; subst; auto.
  - injection H as -> ->; rewrite ch_eqb_refl; simpl; apply IH; auto.
Qed.

Lemma str_eqb_refl (a : str) : str_eqb a a = true.
Proof. apply str_eqb_true; reflexivity. Qed.

Lemma str_eqb_false (a b : str) : str_eqb a b = false <-> a <> b.
Proof.
  split; intro H.
  - intro E; subst; rewrite str_eqb_refl in H; discriminate.
  - destruct (str_eqb a b) eqn:E; auto; apply str_eqb_true in E; contradiction.
Qed.

Lemma dict_set_keys (d : dict) (k v x : str) :
  In x (dict_keys (dict_set d k v)) <-> x = k \/ In x (dict_keys d).
Proof.
  induction d as [|[k' v'] d IH]; simpl.
  - split; [intros [<-|[]]; auto | intros [->|[]]; auto].
  - destruct (str_eqb k' k) eqn:E; simpl.
    + apply str_eqb_true in E; subst; intuition congruence.
    + rewrite IH; intuition congruence.
Qed.

Lemma dict_set_nodup (d : dict) (k v : str) :
  NoDup (dict_keys d) -> NoDup (dict_keys (dict_set d k v)).
Proof.
  induction d as [|[k' v'] d IH]; simpl; intro H.
  - constructor; [intros []| constructor].
  - inversion H as [|? ? Hn Hd]; subst.
    destruct (str_eqb k' k) eqn:E; simpl; constructor; auto.
    rewrite dict_set_keys; intros [->|Hi]; [|contradiction].
    rewrite str_eqb_refl in E; discriminate.
Qed.

Lemma dict_set_get (d : dict) (k v x : str) :
  dict_get (dict_set d k v) x = if str_eqb k x then Some v else dict_get d x.
Proof.
  induction d as [|[k' v'] d IH]; simpl.
  - destruct (str_eqb k x); auto.
  - destruct (str_eqb k' k) eqn:E; simpl.
    + apply str_eqb_true in E; subst; destruct (str_eqb k x); auto.
    + rewrite IH.
      destruct (str_eqb k' x) eqn:E1; destruct (str_eqb k x) eqn:E2; auto.
      apply str_eqb_true in E1, E2; subst; rewrite str_eqb_refl in E; discriminate.
Qed.

Lemma find_app {A} (f : A -> bool) (l1 l2 : list A) :
  find f (l1 ++ l2) = match find f l1 with Some x => Some x | None => find f l2 end.
Proof. induction l1 as [|x l1 IH]; simpl; auto; destruct (f x); auto. Qed.

Lemma fold_set_get (l : list (str * str)) (d : dict) (x : str) :
  dict_get (fold_left set_pair l d) x
  = match last_value x l with Some v => Some v | None => dict_get d x end.
Proof.
  revert d; induction l as [|[k v] l IH]; intro d; simpl; auto.
  rewrite IH; unfold last_value; simpl; rewrite find_app.
  destruct (find (fun kv => str_eqb (fst kv) x) (rev l)) as [[? ?]|]; auto.
  unfold set_pair; simpl; rewrite dict_set_get.
  destruct (str_eqb k x); auto.
Qed.

Lemma fold_set_keys (l : list (str * str)) (d : dict) (x : str) :
  In x (dict_keys (fold_left set_pair l d)) <->
  In x (dict_keys d) \/ exists v, In (x, v) l.
Proof.
  revert d; induction l as [|[k v] l IH]; intro d; simpl.
  - split; [tauto|]; intros [H|[v []]]; auto.
  - rewrite IH; unfold set_pair; simpl; rewrite dict_set_keys.
    split.
    + intros [[->|H]|[w H]]; eauto.
    + intros [H|[w [E|H]]]; eauto.
      injection E as -> ->; auto.
Qed.

Lemma fold_set_nodup (l : list (str * str)) (d : dict) :
  NoDup (dict_keys d) -> NoDup (dict_keys (fold_left set_pair l d)).
Proof.
  revert d; induction l as [|[k v] l IH]; intros d H; simpl; auto.
  apply IH; apply dict_set_nodup; auto.
Qed.

(** ** [strip] *)

Lemma lstrip_app_nonspace (l r : str) (c : ascii) :
  is_space c = false -> lstrip (l ++ c :: r) = lstrip l ++ c :: r.
Proof.
  intro Hc; induction l as [|x l IH]; simpl; [rewrite Hc; reflexivity|].
  destruct (is_space x); auto.
Qed.

Lemma lstrip_idem (s : str) : lstrip (lstrip s) = lstrip s.
Proof.
  induction s as [|c s IH]; simpl; auto.
  destruct (is_space c) eqn:E; auto; simpl; rewrite E; reflexivity.
Qed.

Lemma lstrip_head (s t : str) (c : ascii) : lstrip s = c :: t -> is_space c = false.
Proof.
  induction s as [|x s IH]; simpl; [discriminate|].
  destruct (is_space x) eqn:E; auto; intro H; injection H as -> ->; exact E.
Qed.

Lemma strip_idem (s : str) : strip (strip s) = strip s.
Proof.
  unfold strip, rstrip.
  destruct (lstrip s) as [|c t] eqn:E; [reflexivity|].
  pose proof (lstrip_head _ _ _ E) as Hc.
  simpl; rewrite lstrip_app_nonspace by exact Hc; rewrite rev_app_distr; simpl.
  rewrite Hc; simpl.
  rewrite lstrip_app_nonspace by exact Hc.
  rewrite rev_involutive, lstrip_idem, rev_app_distr; reflexivity.
Qed.

Lemma pair_up_keys (l : list str) (k v : str) : In (k, v) (pair_up l) -> In k l.
Proof.
  remember (length l) as n eqn:Hn; assert (Hl : length l <= n) by lia; clear Hn.
  revert l k v Hl; induction n as [|n IH]; intros l k v Hl.
  - destruct l; [intros []|simpl in Hl; lia].
  - destruct l as [|x [|y r]]; simpl.
    + intros [].
    + intros [E|[]]; inversion E; subst; auto.
    + intros [E|H]; [inversion E; subst; auto|].
      right; right; apply (IH r k v); [simpl in Hl; lia | exact H].
Qed.

Lemma document_entries_keys (root : element) (k v : str) :
  In (k, v) (document_entries root) -> k <> [] /\ strip k = k.
Proof.
  unfold document_entries; intro H; apply in_flat_map in H as (e & _ & He).
  unfold element_entries in He; destruct (desc_attr e) as [d|]; [|destruct He].
  apply filter_In in He as [Hin Hne].
  split; [intro; subst; discriminate|].
  apply pair_up_keys in Hin; unfold description_tokens in Hin.
  apply in_map_iff in Hin as (x & <- & _); apply strip_idem.
Qed.

(** ** Literal replacement *)

Lemma prefixb_spec (p s : str) : prefixb p s = true <-> exists r, s = p ++ r.
Proof.
  revert s; induction p as [|a p IH]; intros [|b s]; simpl.
  - split; eauto.
  - split; eauto.
  - split; [discriminate | intros [r E]; discriminate].
  - rewrite andb_true_iff, ch_eqb_true, IH; split.
    + intros [-> [r ->]]; eauto.
    + intros [r E]; injection E as -> ->; eauto.
Qed.

Lemma prefixb_app_self (p r : str) : prefixb p (p ++ r) = true.
Proof. apply prefixb_spec; eauto. Qed.

Lemma replace_go_absent (old new p : str) :
  old <> [] -> contains old p = false -> replace_go old new 0 p = p.
Proof.
  intro Ho; induction p as [|c p IH]; intro H; simpl; auto.
  simpl in H; apply orb_false_iff in H as [H1 H2].
  rewrite H1, IH; auto.
Qed.

(** An occurrence of a border-free [old] right after a text without one
    is not overlapped by an earlier occurrence. *)
Lemma prefixb_after_piece (old q rest : str) :
  border_free old = true -> q <> [] -> contains old q = false ->
  prefixb old (q ++ old ++ rest) = false.
Proof.
  intros Hb Hq Hc.
  destruct (prefixb old (q ++ old ++ rest)) eqn:E; auto.
  apply prefixb_spec in E as [r E].
  destruct (Nat.le_gt_cases (length old) (length q)) as [Hle|Hgt].
  - assert (Hp : prefixb old q = true).
    { apply prefixb_spec; exists (skipn (length old) q).
      assert (F : firstn (length old) (q ++ old ++ rest) = firstn (length old) (old ++ r))
        by (rewrite E; reflexivity).
      rewrite firstn_app, (proj2 (Nat.sub_0_le _ _) Hle), firstn_O, app_nil_r in F.
      rewrite firstn_app, Nat.sub_diag, firstn_O, app_nil_r, firstn_all in F.
      rewrite <- F at 1; symmetry; apply firstn_skipn. }
    destruct q as [|c q']; [contradiction|].
    simpl in Hc; rewrite Hp in Hc; discriminate.
  - set (s := skipn (length q) old).
    assert (Hq_old : old = q ++ s).
    { assert (F : firstn (length q) (q ++ old ++ rest) = firstn (length q) (old ++ r))
        by (rewrite E; reflexivity).
      rewrite firstn_app, Nat.sub_diag, firstn_O, app_nil_r, firstn_all in F.
      rewrite firstn_app, (proj2 (Nat.sub_0_le _ _) (Nat.lt_le_incl _ _ Hgt)), firstn_O,
        app_nil_r in F.
      unfold s; rewrite F at 1; symmetry; apply firstn_skipn. }
    assert (Hs : prefixb s old = true).
    { apply prefixb_spec; exists (skipn (length s) old).
      rewrite Hq_old in E at 2; rewrite <- app_assoc in E; apply app_inv_head in E.
      assert (F : firstn (length s) (old ++ rest) = firstn (length s) (s ++ r))
        by (rewrite E; reflexivity).
      assert (Ls : length s <= length old) by (unfold s; rewrite length_skipn; lia).
      rewrite firstn_app, (proj2 (Nat.sub_0_le _ _) Ls), firstn_O, app_nil_r in F.
      rewrite firstn_app, Nat.sub_diag, firstn_O, app_nil_r, firstn_all in F.
      rewrite <- F at 1; symmetry; apply firstn_skipn. }
    unfold border_free in Hb; rewrite forallb_forall in Hb.
    assert (Hi : In (length q) (seq 1 (length old - 1))).
    { assert (1 <= length q) by (destruct q; [contradiction | simpl; lia]).
      apply in_seq; lia. }
    specialize (Hb _ Hi); fold s in Hb; rewrite Hs in Hb; discriminate.
Qed.

Lemma replace_go_cons0 (old new : str) (c : ascii) (t : str) :
  replace_go old new 0 (c :: t)
  = if prefixb old (c :: t) then new ++ replace_go old new (pred (length old)) t
    else c :: replace_go old new 0 t.
Proof. reflexivity. Qed.

Lemma replace_go_piece (old new p rest : str) :
  old <> [] -> border_free old = true -> contains old p = false ->
  replace_go old new 0 (p ++ old ++ rest) = p ++ new ++ replace_go old new 0 rest.
Proof.
  intros Ho Hb; induction p as [|c p IH]; intro Hc; simpl.
  - destruct old as [|o os]; [contradiction|].
    rewrite <- app_comm_cons, replace_go_cons0, app_comm_cons, prefixb_app_self; simpl.
    f_equal; apply replace_go_skip.
  - pose proof (prefixb_after_piece old (c :: p) rest Hb) as Hn; simpl in Hn.
    rewrite Hn by (auto; discriminate).
    simpl in Hc; apply orb_false_iff in Hc as [_ Hc].
    rewrite IH; auto.
Qed.

(** [replace] rewrites exactly the occurrences of a border-free token. *)
Lemma py_replace_join (old new : str) (pieces : list str) :
  old <> [] -> border_free old = true ->
  Forall (fun p => contains old p = false) pieces ->
  py_replace old new (join old pieces) = join new pieces.
Proof.
  intros Ho Hb Hp.
  assert (Hr : py_replace old new = replace_go old new 0)
    by (destruct old; [contradiction | reflexivity]).
  rewrite Hr; clear Hr.
  induction Hp as [|p ps Hp Hps IH]; simpl; auto.
  destruct ps as [|p2 ps].
  - apply replace_go_absent; auto.
  - rewrite replace_go_piece; auto; rewrite IH; reflexivity.
Qed.

Lemma py_replace_absent (old new s : str) :
  old <> [] -> contains old s = false -> py_replace old new s = s.
Proof.
  intros Ho Hc; destruct old as [|o os]; [contradiction|].
  apply replace_go_absent; auto; discriminate.
Qed.

(** ** The placeholder pattern *)

Lemma py_lower_angle (c d : ascii) :
  (d = "<"%char \/ d = ">"%char) -> py_lower c = d -> c = d.
Proof.
  intro Hd; unfold py_lower.
  destruct (((65 <=? ord c) && (ord c <=? 90)) ||
            ((192 <=? ord c) && (ord c <=? 222) && negb (ord c =? 215))) eqn:E; [|auto].
  intro H; exfalso.
  assert (Hb : ord c <= 222).
  { apply orb_true_iff in E as [E|E]; rewrite !andb_true_iff in E.
    - destruct E as [_ E]; apply Nat.leb_le in E; lia.
    - destruct E as [[_ E] _]; apply Nat.leb_le in E; lia. }
  assert (Hl : 65 <= ord c).
  { apply orb_true_iff in E as [E|E]; rewrite !andb_true_iff in E.
    - destruct E as [E _]; apply Nat.leb_le in E; lia.
    - destruct E as [[E _] _]; apply Nat.leb_le in E; lia. }
  assert (Hn : ord (chr (ord c + 32)) = ord d) by (rewrite H; reflexivity).
  unfold ord, chr in *; rewrite nat_ascii_embedding in Hn by lia.
  destruct Hd as [-> | ->];
    [change (nat_of_ascii "<"%char) with 60 in Hn | change (nat_of_ascii ">"%char) with 62 in Hn];
    lia.
Qed.

Lemma ci_eqb_angle (k d : ascii) :
  (d = "<"%char \/ d = ">"%char) -> k <> d -> ci_eqb k d = false.
Proof.
  intros Hd Hk; unfold ci_eqb.
  assert (Ld : py_lower d = d) by (destruct Hd as [-> | ->]; reflexivity).
  rewrite Ld; apply ch_eqb_false; intro E; apply Hk; apply (py_lower_angle k d Hd E).
Qed.

Lemma no_angle_ci (key : str) (d : ascii) :
  no_angle key -> (d = "<"%char \/ d = ">"%char) -> forall k, In k key -> ci_eqb k d = false.
Proof.
  intros H Hd k Hk; apply ci_eqb_angle; auto.
  destruct (H k Hk); destruct Hd as [-> | ->]; auto.
Qed.

Lemma ci_eqb_refl (a : ascii) : ci_eqb a a = true.
Proof. apply ch_eqb_refl. Qed.

Lemma ci_prefixb_stop (key u y : str) (d : ascii) :
  (forall k, In k key -> ci_eqb k d = false) ->
  ci_prefixb key (u ++ d :: y) = ci_prefixb key (u ++ [d]).
Proof.
  revert u; induction key as [|k key IH]; intros [|x u] H; simpl; auto.
  - rewrite (H k); simpl; auto.
  - rewrite IH; auto; intros; apply H; simpl; auto.
Qed.

Lemma ci_prefixb_past (key u y : str) (d : ascii) :
  length u < length key -> (forall k, In k key -> ci_eqb k d = false) ->
  ci_prefixb key (u ++ d :: y) = false.
Proof.
  revert key; induction u as [|x u IH]; intros [|k key] Hl H; simpl in *; try lia.
  - rewrite (H k); auto.
  - destruct (ci_eqb k x); simpl; auto.
    apply IH; [lia | intros; apply H; auto].
Qed.

Lemma ci_prefixb_len (key u : str) : ci_prefixb key u = true -> length key <= length u.
Proof.
  revert u; induction key as [|k key IH]; intros [|x u]; simpl; try lia; try discriminate.
  intro H; apply andb_true_iff in H as [_ H]; apply IH in H; lia.
Qed.

Lemma ci_prefixb_app (key u z : str) :
  length key <= length u -> ci_prefixb key (u ++ z) = ci_prefixb key u.
Proof.
  revert u; induction key as [|k key IH]; intros [|x u] H; simpl in *; auto; try lia.
  rewrite IH; auto; lia.
Qed.

Lemma ci_prefixb_app_same (x p s : str) : ci_prefixb (x ++ p) (x ++ s) = ci_prefixb p s.
Proof. induction x as [|a x IH]; simpl; auto; rewrite ci_eqb_refl, IH; reflexivity. Qed.

Lemma ci_prefixb_self (key y : str) : ci_prefixb key (key ++ y) = true.
Proof. induction key as [|a key IH]; simpl; auto; rewrite ci_eqb_refl, IH; reflexivity. Qed.

Lemma lead_spaces_app (t y : str) (d : ascii) :
  is_space d = false -> lead_spaces (t ++ d :: y) = lead_spaces t.
Proof.
  intro Hd; induction t as [|x t IH]; simpl; [rewrite Hd; reflexivity|].
  destruct (is_space x); auto.
Qed.

Lemma lead_spaces_le (t : str) : lead_spaces t <= length t.
Proof. induction t as [|x t IH]; simpl; auto; destruct (is_space x); lia. Qed.

Lemma after_key_close (key u y : str) (d : ascii) :
  is_space d = false -> (forall k, In k key -> ci_eqb k d = false) ->
  after_key key (u ++ d :: y) = after_key key (u ++ [d]).
Proof.
  intros Hs Hk; unfold after_key.
  destruct (Nat.le_gt_cases (length key) (length u)) as [Hle|Hgt].
  - rewrite !ci_prefixb_app by exact Hle.
    destruct (ci_prefixb key u); auto.
    rewrite !skipn_app; replace (length key - length u) with 0 by lia; simpl.
    set (u2 := skipn (length key) u).
    rewrite !lead_spaces_app by exact Hs.
    pose proof (lead_spaces_le u2) as Hw.
    destruct (Nat.lt_ge_cases (lead_spaces u2) (length u2)) as [Hlt|Hge].
    + rewrite !nth_error_app1 by exact Hlt; reflexivity.
    + replace (lead_spaces u2) with (length u2) by lia.
      rewrite !nth_error_app2, Nat.sub_diag by lia; reflexivity.
  - rewrite ci_prefixb_past by auto.
    rewrite (ci_prefixb_past key u [] d) by auto; reflexivity.
Qed.

Lemma after_key_drop (key u : str) (d : ascii) :
  is_space d = false -> d <> "<"%char -> (forall k, In k key -> ci_eqb k d = false) ->
  after_key key (u ++ [d]) = after_key key u.
Proof.
  intros Hs Hd Hk; unfold after_key.
  destruct (Nat.le_gt_cases (length key) (length u)) as [Hle|Hgt].
  - rewrite ci_prefixb_app by exact Hle.
    destruct (ci_prefixb key u); auto.
    rewrite skipn_app; replace (length key - length u) with 0 by lia; simpl.
    set (u2 := skipn (length key) u).
    rewrite lead_spaces_app by exact Hs.
    pose proof (lead_spaces_le u2) as Hw.
    destruct (Nat.lt_ge_cases (lead_spaces u2) (length u2)) as [Hlt|Hge].
    + rewrite nth_error_app1 by exact Hlt; reflexivity.
    + replace (lead_spaces u2) with (length u2) by lia.
      rewrite nth_error_app2, Nat.sub_diag by lia; simpl.
      rewrite (proj2 (nth_error_None u2 (length u2))) by lia.
      rewrite (proj2 (ch_eqb_false d "<") Hd); reflexivity.
  - rewrite (ci_prefixb_past key u [] d) by auto.
    destruct (ci_prefixb key u) eqn:P; auto.
    apply ci_prefixb_len in P; lia.
Qed.

Lemma after_key_bound (key u : str) (n : nat) :
  after_key key u = Some n -> 1 <= n <= length u.
Proof.
  unfold after_key; destruct (ci_prefixb key u) eqn:P; [|discriminate].
  destruct (nth_error (skipn (length key) u) (lead_spaces (skipn (length key) u))) eqn:N;
    [|discriminate].
  destruct (ch_eqb a "<"); [|discriminate].
  intro H; injection H as <-.
  apply ci_prefixb_len in P.
  assert (Hlt : lead_spaces (skipn (length key) u) < length (skipn (length key) u))
    by (apply nth_error_Some; rewrite N; discriminate).
  rewrite length_skipn in Hlt; lia.
Qed.

Lemma try_lead_ext (key t1 t2 : str) (m : nat) :
  (forall i, i <= m -> after_key key (skipn i t1) = after_key key (skipn i t2)) ->
  try_lead key t1 m = try_lead key t2 m.
Proof.
  induction m as [|m IH]; intro H; cbn [try_lead].
  - rewrite (H 0 (le_n 0)); reflexivity.
  - rewrite (H (S m) (le_n _)).
    destruct (after_key key (skipn (S m) t2)); [reflexivity|].
    rewrite IH; [reflexivity|]; intros; apply H; lia.
Qed.

Lemma try_lead_bound (key t : str) (m n : nat) :
  try_lead key t m = Some n -> 1 <= n <= length t.
Proof.
  induction m as [|m IH]; cbn [try_lead];
    destruct (after_key key (skipn _ t)) as [k|] eqn:A; intro H; try discriminate; auto.
  all: injection H as <-; apply after_key_bound in A; rewrite length_skipn in A; lia.
Qed.

Lemma match_at_bound (key s : str) (n : nat) :
  match_at key s = Some n -> 1 <= n <= length s.
Proof.
  destruct s as [|c t]; simpl; [discriminate|].
  destruct (ch_eqb c ">"); [|discriminate].
  destruct (try_lead key t (lead_spaces t)) eqn:T; [|discriminate].
  intro H; injection H as <-; apply try_lead_bound in T; lia.
Qed.

(** A match ends at the first [<] or [>] after its opening [>]: what
    follows does not matter. *)
Lemma match_at_close (key s y : str) (d : ascii) :
  s <> [] -> is_space d = false -> (forall k, In k key -> ci_eqb k d = false) ->
  match_at key (s ++ d :: y) = match_at key (s ++ [d]).
Proof.
  intros Hne Hs Hk; destruct s as [|c t]; [contradiction|]; simpl.
  destruct (ch_eqb c ">"); auto.
  rewrite !lead_spaces_app by exact Hs.
  rewrite (try_lead_ext key (t ++ d :: y) (t ++ [d])); auto.
  intros i Hi; pose proof (lead_spaces_le t).
  rewrite !skipn_app; replace (i - length t) with 0 by lia; simpl.
  apply after_key_close; auto.
Qed.

Lemma match_at_drop (key s : str) (d : ascii) :
  s <> [] -> is_space d = false -> d <> "<"%char -> (forall k, In k key -> ci_eqb k d = false) ->
  match_at key (s ++ [d]) = match_at key s.
Proof.
  intros Hne Hs Hd Hk; destruct s as [|c t]; [contradiction|]; simpl.
  destruct (ch_eqb c ">"); auto.
  rewrite !lead_spaces_app by exact Hs.
  rewrite (try_lead_ext key (t ++ [d]) t); auto.
  intros i Hi; pose proof (lead_spaces_le t).
  rewrite !skipn_app; replace (i - length t) with 0 by lia; simpl.
  apply after_key_drop; auto.
Qed.

(** ** Substitution around placeholders *)

Lemma sub_go_skip (key : str) (tm : list titem) (k : nat) (l : str) :
  sub_go key tm k l = sub_go key tm 0 (skipn k l).
Proof.
  revert k; induction l as [|c l IH]; intros [|k]; simpl; auto.
Qed.

Lemma sub_go_match (key : str) (tm : list titem) (s : str) (n : nat) :
  match_at key s = Some n ->
  sub_go key tm 0 s = expand tm (firstn n s) ++ sub_go key tm 0 (skipn n s).
Proof.
  intro H; pose proof (match_at_bound key s n H) as Hb.
  destruct s as [|c t]; [discriminate|].
  cbn [sub_go]; rewrite H, sub_go_skip.
  destruct n as [|n]; [lia|]; reflexivity.
Qed.

Lemma sub_go_no_match (key : str) (tm : list titem) (c : ascii) (t : str) :
  match_at key (c :: t) = None -> sub_go key tm 0 (c :: t) = c :: sub_go key tm 0 t.
Proof. intro H; cbn [sub_go]; rewrite H; reflexivity. Qed.

Lemma match_at_not_open (key t : str) (c : ascii) :
  c <> ">"%char -> match_at key (c :: t) = None.
Proof. intro H; simpl; rewrite (proj2 (ch_eqb_false c ">") H); reflexivity. Qed.

(** Text without [>] passes through a keyed pass unchanged. *)
Lemma sub_go_plain (key : str) (tm : list titem) (x y : str) :
  (forall c, In c x -> c <> ">"%char) ->
  sub_go key tm 0 (x ++ y) = x ++ sub_go key tm 0 y.
Proof.
  induction x as [|c x IH]; intro H; cbn [app]; auto.
  rewrite (sub_go_no_match key tm c (x ++ y)) by (apply match_at_not_open, H; simpl; auto).
  rewrite IH; auto; intros; apply H; simpl; auto.
Qed.

(** A keyed pass works piecewise at every [>]: no match crosses it. *)
Lemma sub_go_junction (key : str) (tm : list titem) (a y : str) :
  no_angle key ->
  sub_go key tm 0 (a ++ ">"%char :: y) = sub_go key tm 0 a ++ sub_go key tm 0 (">"%char :: y).
Proof.
  intro Hk.
  assert (Hc : forall k, In k key -> ci_eqb k ">" = false)
    by (apply no_angle_ci; auto).
  remember (length a) as len eqn:El.
  revert a El; induction len as [len IH] using lt_wf_ind; intros a El.
  destruct a as [|c t]; [reflexivity|].
  assert (Hj : match_at key ((c :: t) ++ ">"%char :: y) = match_at key (c :: t)).
  { rewrite match_at_close by (auto; discriminate).
    apply match_at_drop; auto; discriminate. }
  destruct (match_at key (c :: t)) as [n|] eqn:M.
  - pose proof (match_at_bound _ _ _ M) as Hb.
    rewrite (sub_go_match key tm _ n Hj), (sub_go_match key tm _ n M).
    rewrite firstn_app, skipn_app.
    replace (n - length (c :: t)) with 0 by lia.
    rewrite firstn_O, app_nil_r; cbn [skipn].
    rewrite (IH (length (skipn n (c :: t)))); [| rewrite length_skipn; cbn [length] in *; lia | reflexivity].
    rewrite app_assoc; reflexivity.
  - cbn [app] in Hj |- *.
    rewrite sub_go_no_match by (rewrite Hj; reflexivity).
    rewrite sub_go_no_match by exact M.
    rewrite (IH (length t)); [reflexivity | simpl in El; lia | reflexivity].
Qed.

Lemma search_found (key x s : str) : match_at key s <> None -> search key (x ++ s) = true.
Proof.
  intro H; induction x as [|c x IH]; cbn [app].
  - destruct s as [|c t]; [contradiction H; reflexivity|].
    cbn [search]; destruct (match_at key (c :: t)); [reflexivity|contradiction H; reflexivity].
  - cbn [search]; destruct (match_at key (c :: x ++ s)); auto.
Qed.

(** ** Replacement templates without backslashes *)

Lemma parse_template_go_plain (f : nat) (s : str) :
  length s < f -> no_backslash s -> parse_template_go f s = Some (map TLit s).
Proof.
  revert f; induction s as [|c s IH]; intros [|f] Hl H; cbn [length] in Hl; try lia.
  - reflexivity.
  - assert (Hc : ch_eqb c "\"%char = false) by (apply ch_eqb_false, H; left; reflexivity).
    cbn [parse_template_go]; rewrite Hc; cbn [negb].
    rewrite IH; [reflexivity | lia | intros x Hx; apply H; right; exact Hx].
Qed.

Lemma parse_template_plain (s : str) : no_backslash s -> parse_template s = Some (map TLit s).
Proof. intro H; apply parse_template_go_plain; auto. Qed.

Lemma expand_plain (s m : str) : expand (map TLit s) m = s.
Proof. induction s as [|c s IH]; simpl; auto; rewrite IH; reflexivity. Qed.

Lemma replace_go_chars (old new : str) (k : nat) (s : str) (c : ascii) :
  In c (replace_go old new k s) -> In c s \/ In c new.
Proof.
  revert k; induction s as [|x s IH]; intros [|k]; simpl; auto.
  - destruct (prefixb old (x :: s)); simpl; intro H.
    + apply in_app_or in H as [H|H]; auto.
      destruct (IH _ H); auto.
    + destruct H as [<-|H]; auto; destruct (IH _ H); auto.
  - intro H; destruct (IH _ H); auto.
Qed.

Lemma py_replace_chars (old new s : str) (c : ascii) :
  In c (py_replace old new s) -> In c s \/ In c new.
Proof.
  unfold py_replace; destruct old as [|o old].
  - intro H; apply in_app_or in H as [H|H]; auto.
    apply in_flat_map in H as (x & Hx & [<-|H]); auto.
  - apply replace_go_chars.
Qed.

Lemma sanitize_no_backslash (v : str) : no_backslash v -> no_backslash (sanitize v).
Proof.
  intros H c Hc; unfold sanitize, escape, unescape in Hc.
  repeat (apply py_replace_chars in Hc as [Hc|Hc];
          [| cbn [s2l list_ascii_of_string In] in Hc;
             intuition (subst; discriminate)]).
  apply H; exact Hc.
Qed.

(** ** Placeholders of trimmed keys *)

Lemma strip_fixed_head (k t : str) (c : ascii) : strip k = k -> k = c :: t -> is_space c = false.
Proof.
  intros Hs ->; unfold strip, rstrip in Hs.
  destruct (lstrip (c :: t)) as [|c' t'] eqn:E; [discriminate|].
  pose proof (lstrip_head _ _ _ E) as Hc'.
  simpl in Hs; rewrite lstrip_app_nonspace, rev_app_distr in Hs by exact Hc'.
  simpl in Hs; injection Hs as <- _; exact Hc'.
Qed.

Lemma match_at_placeholder (K y : str) :
  strip K = K -> K <> [] ->
  match_at K (placeholder K ++ y) = Some (length K + 2).
Proof.
  intros Hs Hne.
  assert (Hk : lead_spaces (K ++ "<"%char :: y) = 0).
  { destruct K as [|k t]; [contradiction|].
    cbn [app lead_spaces]; rewrite (strip_fixed_head _ _ _ Hs eq_refl); reflexivity. }
  replace (placeholder K ++ y) with (">"%char :: K ++ "<"%char :: y)
    by (unfold placeholder; simpl; rewrite <- app_assoc; reflexivity).
  unfold match_at; rewrite ch_eqb_refl, Hk; cbn [try_lead]; change (skipn 0 ?u) with u.
  unfold after_key; rewrite ci_prefixb_self, skipn_app, Nat.sub_diag, skipn_all.
  cbn [app skipn lead_spaces]; replace (is_space "<"%char) with false by reflexivity.
  cbn [nth_error]; rewrite ch_eqb_refl; f_equal; lia.
Qed.

(** A key does not match the placeholder of a proper prefix of it. *)
Lemma match_at_placeholder_short (K r y : str) :
  strip K = K -> K <> [] -> r <> [] -> no_angle r ->
  match_at (K ++ r) (placeholder K ++ y) = None.
Proof.
  intros Hs Hne Hr Ha.
  assert (Hk : lead_spaces (K ++ "<"%char :: y) = 0).
  { destruct K as [|k t]; [contradiction|].
    cbn [app lead_spaces]; rewrite (strip_fixed_head _ _ _ Hs eq_refl); reflexivity. }
  replace (placeholder K ++ y) with (">"%char :: K ++ "<"%char :: y)
    by (unfold placeholder; simpl; rewrite <- app_assoc; reflexivity).
  unfold match_at; rewrite ch_eqb_refl, Hk; cbn [try_lead]; change (skipn 0 ?u) with u.
  unfold after_key; rewrite ci_prefixb_app_same.
  destruct r as [|x r]; [contradiction|]; cbn [ci_prefixb].
  rewrite (no_angle_ci (x :: r) "<"%char Ha (or_introl eq_refl) x (or_introl eq_refl)).
  reflexivity.
Qed.

(** ** One keyed pass over placeholders *)

Lemma placeholder_cons (z y : str) : placeholder z ++ y = ">"%char :: z ++ "<"%char :: y.
Proof. unfold placeholder; simpl; rewrite <- app_assoc; reflexivity. Qed.

Lemma placeholder_snoc (z : str) : placeholder z = (">"%char :: z) ++ ["<"%char].
Proof. reflexivity. Qed.

Lemma length_placeholder (z : str) : length (placeholder z) = length z + 2.
Proof. unfold placeholder; rewrite !length_app; simpl; lia. Qed.

Lemma match_at_placeholder_ext (K z y : str) :
  no_angle K -> match_at K (placeholder z ++ y) = match_at K (placeholder z).
Proof.
  intro Hk; rewrite placeholder_cons, placeholder_snoc, app_comm_cons.
  apply match_at_close; [discriminate | reflexivity | apply no_angle_ci; auto].
Qed.

Lemma sub_go_at_placeholder (K : str) (tm : list titem) (a z y : str) :
  no_angle K ->
  sub_go K tm 0 (a ++ placeholder z ++ y) = sub_go K tm 0 a ++ sub_go K tm 0 (placeholder z ++ y).
Proof. intro Hk; rewrite placeholder_cons; apply sub_go_junction; exact Hk. Qed.

(** A placeholder the key's pattern matches as a whole is replaced by the
    (backslash-free) replacement. *)
Lemma sub_go_whole (K W z y : str) :
  no_angle K -> match_at K (placeholder z) = Some (length (placeholder z)) ->
  sub_go K (map TLit W) 0 (placeholder z ++ y) = W ++ sub_go K (map TLit W) 0 y.
Proof.
  intros Hk H; rewrite <- (match_at_placeholder_ext K z y Hk) in H.
  rewrite (sub_go_match _ _ _ _ H), expand_plain, skipn_app, skipn_all, Nat.sub_diag.
  reflexivity.
Qed.

(** A placeholder the key's pattern does not match is left as it is. *)
Lemma sub_go_miss (K : str) (tm : list titem) (z y : str) :
  no_angle K -> no_angle z -> match_at K (placeholder z) = None ->
  sub_go K tm 0 (placeholder z ++ y) = placeholder z ++ sub_go K tm 0 y.
Proof.
  intros Hk Hz H; rewrite <- (match_at_placeholder_ext K z y Hk) in H.
  rewrite placeholder_cons in H |- *.
  rewrite sub_go_no_match by exact H.
  rewrite sub_go_plain by (intros c Hc; apply (Hz c Hc)).
  rewrite sub_go_no_match by (apply match_at_not_open; discriminate).
  unfold placeholder; simpl; rewrite <- app_assoc; reflexivity.
Qed.

Lemma sub_go_hit (K W y : str) :
  strip K = K -> K <> [] -> no_angle K ->
  sub_go K (map TLit W) 0 (placeholder K ++ y) = W ++ sub_go K (map TLit W) 0 y.
Proof.
  intros Hs Hne Hk; apply sub_go_whole; auto.
  rewrite length_placeholder, <- (app_nil_r (placeholder K)).
  apply match_at_placeholder; auto.
Qed.

(** A pass over a text with two placeholders works piece by piece. *)
Lemma sub_go_two (K : str) (tm : list titem) (a b c z1 z2 W1 W2 : str) :
  no_angle K ->
  (forall y, sub_go K tm 0 (placeholder z1 ++ y) = W1 ++ sub_go K tm 0 y) ->
  (forall y, sub_go K tm 0 (placeholder z2 ++ y) = W2 ++ sub_go K tm 0 y) ->
  sub_go K tm 0 (a ++ placeholder z1 ++ b ++ placeholder z2 ++ c) =
  sub_go K tm 0 a ++ W1 ++ sub_go K tm 0 b ++ W2 ++ sub_go K tm 0 c.
Proof.
  intros Hk H1 H2.
  rewrite sub_go_at_placeholder, H1, sub_go_at_placeholder, H2 by exact Hk.
  reflexivity.
Qed.

Lemma no_angle_app (x y : str) : no_angle x -> no_angle y -> no_angle (x ++ y).
Proof. intros Hx Hy c Hc; apply in_app_or in Hc as [Hc|Hc]; auto. Qed.

Lemma no_angle_prefix (x y : str) : no_angle (x ++ y) -> no_angle x.
Proof. intros H c Hc; apply H, in_or_app; auto. Qed.

Lemma no_angle_sanitize (v : str) : no_angle (sanitize v).
Proof. intros c Hc; exact (escape_no_angle _ _ Hc). Qed.

Lemma filled_no_backslash (v : str) : no_backslash v -> no_backslash (filled v).
Proof.
  intros H c Hc; unfold filled, placeholder in Hc.
  apply in_app_or in Hc as [[<-|[]]|Hc]; [discriminate|].
  apply in_app_or in Hc as [Hc|[<-|[]]]; [|discriminate].
  exact (sanitize_no_backslash v H c Hc).
Qed.

(** One iteration of the loop of [replace_fields] on a text where the key's
    pattern matches somewhere. *)
Lemma replace_key_matched (m : dict) (raw K V x s : str) :
  dict_get m K = Some V -> no_backslash V -> match_at K s <> None ->
  raw = x ++ s ->
  replace_key m raw K = Some (sub_go K (map TLit (filled V)) 0 raw).
Proof.
  intros Hg Hv Hs Hr; unfold replace_key; rewrite Hg.
  rewrite Hr at 1; rewrite search_found by exact Hs.
  unfold sub; change ([">"%char] ++ sanitize V ++ ["<"%char]) with (filled V).
  rewrite parse_template_plain by (apply filled_no_backslash; exact Hv).
  reflexivity.
Qed.

(** ... in particular on a text holding the key's placeholder. *)
Lemma replace_key_found (m : dict) (raw K V x y : str) :
  dict_get m K = Some V -> no_backslash V -> strip K = K -> K <> [] ->
  raw = x ++ placeholder K ++ y ->
  replace_key m raw K = Some (sub_go K (map TLit (filled V)) 0 raw).
Proof.
  intros Hg Hv Hs Hne Hr; apply (replace_key_matched m raw K V x (placeholder K ++ y)); auto.
  rewrite match_at_placeholder by auto; discriminate.
Qed.

(** The table of two keys, the shorter one second. *)
Lemma two_keys_sorted (K1 K2 V1 V2 : str) (m : dict) :
  length K2 < length K1 ->
  (m = [(K1, V1); (K2, V2)] \/ m = [(K2, V2); (K1, V1)]) ->
  sort_by_len_desc (dict_keys m) = [K1; K2] /\
  dict_get m K1 = Some V1 /\ dict_get m K2 = Some V2.
Proof.
  intros Hl Hm.
  assert (Hne : str_eqb K1 K2 = false)
    by (apply str_eqb_false; intros ->; lia).
  assert (Hne' : str_eqb K2 K1 = false)
    by (apply str_eqb_false; intros ->; lia).
  destruct Hm as [-> | ->]; cbn [dict_keys map fst sort_by_len_desc insert_by_len dict_get];
    rewrite ?str_eqb_refl, ?Hne, ?Hne'.
  - rewrite (proj2 (Nat.ltb_ge _ _)) by lia; auto.
  - rewrite (proj2 (Nat.ltb_lt _ _)) by lia; auto.
Qed.

(** * The claims *)

(** ** Sanitization of values *)

(** C2 (counterexample): the double quote is not escaped to [&quot;], and
    the entity [&quot;] is not decoded, so it comes out escaped twice. *)
Lemma C2_quote_not_escaped :
  sanitize [chr 34] <> s2l "&quot;" /\ sanitize (s2l "&quot;") = s2l "&amp;quot;".
Proof. split; [vm_compute; discriminate | reflexivity]. Qed.

(** C2 (amended): sanitization decodes only [&lt;], [&gt;] and [&amp;] and
    encodes only [&], [>] and [<]: it is idempotent (a sanitized value is
    never escaped twice), leaves no [<] or [>], keeps a value without
    [&], [<] and [>] (quotes included) unchanged, turns [&amp;] into [&amp;]
    and [<] into [&lt;]; rendered in a placeholder these two values read
    [>&amp;<] and [>&lt;<]. *)
Theorem C2_sanitize_amended :
  (forall s, sanitize (sanitize s) = sanitize s) /\
  (forall s c, In c (sanitize s) -> c <> "<"%char /\ c <> ">"%char) /\
  (forall s, (forall c, In c s -> c <> "&"%char /\ c <> "<"%char /\ c <> ">"%char) ->
             sanitize s = s) /\
  sanitize (s2l "&amp;") = s2l "&amp;" /\ sanitize (s2l "<") = s2l "&lt;" /\
  replace_fields (s2l ">K<") [(s2l "K", s2l "&amp;")] (s2l "a.xml") (s2l "18/10/2026")
    = Some (s2l ">&amp;<") /\
  replace_fields (s2l ">K<") [(s2l "K", s2l "<")] (s2l "a.xml") (s2l "18/10/2026")
    = Some (s2l ">&lt;<").
Proof.
  split; [exact sanitize_idempotent|].
  split; [intros s c; apply escape_no_angle|].
  split.
  - intros s H; unfold sanitize.
    rewrite unescape_plain by (intros c Hc; apply (H c Hc)).
    apply escape_plain; exact H.
  - repeat split; reflexivity.
Qed.

Lemma C2_sanitize_amended_witness :
  sanitize (s2l "say 'hi'") = s2l "say 'hi'".
Proof.
  apply (proj1 (proj2 (proj2 C2_sanitize_amended))).
  intros c Hc; simpl in Hc.
  repeat (destruct Hc as [<-|Hc]; [repeat split; discriminate|]); destruct Hc.
Defined.

(** ** Extraction *)

(** C4: the index loop over the split description takes the trimmed tokens
    two by two, a key and its value, and gives a last unpaired key the
    empty string; [A|1|B|2|C] yields exactly [{A:1, B:2, C:""}]. *)
Theorem C4_pairs_in_order :
  (forall raw m, parse_description raw m
                 = fold_left record_pair (pair_up (description_tokens raw)) m) /\
  extract (Element (Some (s2l "A|1|B|2|C")) [])
  = [(s2l "A", s2l "1"); (s2l "B", s2l "2"); (s2l "C", [])].
Proof.
  split; [exact parse_description_pairs | reflexivity].
Qed.

(** C5: a pair whose trimmed key is empty adds nothing, whether or not a
    value follows it; [|1|B|2] yields exactly [{B:2}]. *)
Theorem C5_empty_key_dropped :
  (forall raw m, parse_description raw m
                 = fold_left set_pair
                     (filter (fun kv => negb (is_empty (fst kv))) (pair_up (description_tokens raw)))
                     m) /\
  extract (Element (Some (s2l "|1|B|2")) []) = [(s2l "B", s2l "2")].
Proof.
  split; [exact parse_description_entries | reflexivity].
Qed.

(** C6: for a well-formed document, the table has one entry per distinct
    key among the trimmed non-empty keys of all descriptions, in document
    order, and each key is bound to the value of its last occurrence. *)
Theorem C6_one_entry_last_wins (root : element) :
  NoDup (dict_keys (extract root)) /\
  (forall k, In k (dict_keys (extract root)) <->
             exists v, In (k, v) (document_entries root)) /\
  (forall k, In k (dict_keys (extract root)) -> k <> [] /\ strip k = k) /\
  (forall k, dict_get (extract root) k = last_value k (document_entries root)).
Proof.
  rewrite extract_entries.
  split; [apply fold_set_nodup; constructor|].
  split; [intro k; rewrite fold_set_keys; simpl; intuition|].
  split.
  - intros k Hk; apply fold_set_keys in Hk as [[]|[v Hv]].
    exact (document_entries_keys root k v Hv).
  - intro k; rewrite fold_set_get; destruct (last_value k _); reflexivity.
Qed.

(** A document in which [A] is set twice, in two elements. *)
Definition doc_twice : element :=
  Element None [Element (Some (s2l "A|1|B|2")) [];
                Element None [Element (Some (s2l " A | 3 ")) []]].

Lemma C6_one_entry_last_wins_witness :
  dict_get (extract doc_twice) (s2l "A") = Some (s2l "3") /\
  (s2l "B" <> [] /\ strip (s2l "B") = s2l "B").
Proof.
  destruct (C6_one_entry_last_wins doc_twice) as (_ & _ & H3 & H4).
  split; [rewrite H4; reflexivity | apply H3; vm_compute; right; left; reflexivity].
Defined.

(** ** The fixed tokens *)

Lemma template_name_border_free : border_free (s2l "TEMPLATE_NAME") = true.
Proof. reflexivity. Qed.

Lemma current_date_border_free : border_free (s2l "CURRENT_DATE") = true.
Proof. reflexivity. Qed.

Lemma replace_fields_empty (raw xml_filename current_date : str) :
  replace_fields raw [] xml_filename current_date
  = Some (replace_fixed raw xml_filename current_date).
Proof. reflexivity. Qed.

(** C7: before the keyed passes, [replace_fields] replaces [TEMPLATE_NAME]
    by the base name of the input file without its extension and then
    [CURRENT_DATE] by the date; both are plain [str.replace] calls, which
    rewrite every occurrence of the token wherever it stands. *)
Theorem C7_fixed_tokens_first :
  (forall raw mappings xml_filename current_date,
     replace_fields raw mappings xml_filename current_date
     = replace_keys mappings (sort_by_len_desc (dict_keys mappings))
         (py_replace (s2l "CURRENT_DATE") current_date
            (py_replace (s2l "TEMPLATE_NAME")
               (splitext_root (basename xml_filename)) raw))) /\
  (forall tok new pieces,
     In tok [s2l "TEMPLATE_NAME"; s2l "CURRENT_DATE"] ->
     Forall (fun p => contains tok p = false) pieces ->
     py_replace tok new (join tok pieces) = join new pieces) /\
  template_name_of (s2l "profiles/F-16 Viper.v2.xml") = s2l "F-16 Viper.v2".
Proof.
  split; [reflexivity|].
  split; [|reflexivity].
  intros tok new pieces Htok Hp.
  destruct Htok as [<-|[<-|[]]]; apply py_replace_join; auto; discriminate.
Qed.

(** The token inside an attribute value is replaced like the one in a
    text element. *)
Lemma C7_fixed_tokens_first_witness :
  py_replace (s2l "TEMPLATE_NAME") (s2l "Viper")
    (join (s2l "TEMPLATE_NAME") [s2l "<g id='"; s2l "'><text>"; s2l "</text></g>"])
  = join (s2l "Viper") [s2l "<g id='"; s2l "'><text>"; s2l "</text></g>"].
Proof.
  apply (proj1 (proj2 C7_fixed_tokens_first)).
  - left; reflexivity.
  - repeat constructor.
Defined.

(** C9 (counterexample): with an empty table and the input file
    [DATE.xml], the template [CURRENT_TEMPLATE_NAME] becomes the date: the
    text [CURRENT_], which is no token of the template, is rewritten too. *)
Lemma C9_stem_forms_date_token :
  replace_fields (s2l "CURRENT_TEMPLATE_NAME") [] (s2l "DATE.xml") (s2l "18/10/2026")
    = Some (s2l "18/10/2026") /\
  ~ (exists rest, replace_fields (s2l "CURRENT_TEMPLATE_NAME") [] (s2l "DATE.xml")
                    (s2l "18/10/2026") = Some (s2l "CURRENT_" ++ rest)).
Proof.
  split; [reflexivity|].
  intros [rest H]; vm_compute in H; inversion H.
Qed.

(** ** Gluing the pieces around an inserted text *)

Lemma join_cons_ne (sep p : str) (l : list str) :
  l <> [] -> join sep (p :: l) = p ++ sep ++ join sep l.
Proof. destruct l; [congruence | reflexivity]. Qed.

Lemma attach_ne (x : str) (qs ps : list str) : attach x qs ps <> [].
Proof. destruct qs as [|q [|q2 qs]]; [destruct ps | destruct ps |]; simpl; discriminate. Qed.

Lemma join_attach (sep x : str) (qs ps : list str) :
  join sep (attach x qs ps) = join sep qs ++ x ++ join sep ps.
Proof.
  induction qs as [|q qs IH].
  - destruct ps as [|p [|p2 ps]]; simpl; rewrite ?app_nil_r, <- ?app_assoc; reflexivity.
  - destruct qs as [|q2 qs].
    + destruct ps as [|p [|p2 ps]]; simpl; rewrite ?app_nil_r, <- ?app_assoc; reflexivity.
    + change (attach x (q :: q2 :: qs) ps) with (q :: attach x (q2 :: qs) ps).
      rewrite join_cons_ne by apply attach_ne.
      rewrite IH, (join_cons_ne sep q (q2 :: qs)) by discriminate.
      rewrite <- !app_assoc; reflexivity.
Qed.

(** Joining the groups with [x] is joining the glued pieces with [sep]. *)
Lemma join_glue (sep x : str) (qss : list (list str)) :
  join x (map (join sep) qss) = join sep (glue x qss).
Proof.
  induction qss as [|qs qss IH]; [reflexivity|].
  destruct qss as [|qs2 qss]; [reflexivity|].
  change (glue x (qs :: qs2 :: qss)) with (attach x qs (glue x (qs2 :: qss))).
  rewrite join_attach, <- IH, map_cons.
  rewrite join_cons_ne by (simpl; discriminate).
  reflexivity.
Qed.

Lemma prefixb_app_notin (old s : str) (c : ascii) (y : str) :
  ~ In c old -> prefixb old (s ++ c :: y) = prefixb old s.
Proof.
  revert s; induction old as [|o os IH]; intros s Hc; [destruct s; reflexivity|].
  destruct s as [|b s]; simpl.
  - assert (E : ch_eqb o c = false)
      by (apply ch_eqb_false; intro; subst; apply Hc; simpl; auto).
    rewrite E; reflexivity.
  - rewrite IH; [reflexivity|]; intro H; apply Hc; simpl; auto.
Qed.

(** No occurrence spans a character that is not in [old]. *)
Lemma contains_app_notin (old x : str) (c : ascii) (y : str) :
  ~ In c old -> contains old (x ++ c :: y) = contains old x || contains old y.
Proof.
  intro Hc; induction x as [|a x IH]; simpl.
  - pose proof (prefixb_app_notin old [] c y Hc) as P; simpl in P.
    rewrite P, orb_false_r; reflexivity.
  - pose proof (prefixb_app_notin old (a :: x) c y Hc) as P; simpl in P.
    rewrite P, IH, orb_assoc; reflexivity.
Qed.

Lemma contains_nil (old : str) : old <> [] -> contains old [] = false.
Proof. destruct old; [congruence | reflexivity]. Qed.

Lemma contains_plain_mid (old q x p : str) :
  old <> [] -> x <> [] -> (forall c, In c x -> ~ In c old) ->
  contains old (q ++ x ++ p) = contains old q || contains old p.
Proof.
  intro Ho; revert q; induction x as [|c x IH]; intros q Hx Hc; [congruence|].
  rewrite <- app_comm_cons, contains_app_notin by (apply Hc; simpl; auto).
  destruct x as [|c2 x]; [reflexivity|].
  change ((c2 :: x) ++ p) with ([] ++ (c2 :: x) ++ p).
  rewrite IH by (discriminate || (intros; apply Hc; simpl; auto)).
  rewrite contains_nil by exact Ho; reflexivity.
Qed.

Lemma attach_no (old x : str) (qs ps : list str) :
  old <> [] -> x <> [] -> (forall c, In c x -> ~ In c old) ->
  Forall (fun q => contains old q = false) qs ->
  Forall (fun q => contains old q = false) ps ->
  Forall (fun q => contains old q = false) (attach x qs ps).
Proof.
  intros Ho Hx Hc Hq Hp.
  assert (M : forall q p, contains old q = false -> contains old p = false ->
                          contains old (q ++ x ++ p) = false).
  { intros q p E1 E2; rewrite contains_plain_mid, E1, E2 by auto; reflexivity. }
  assert (N : contains old [] = false) by (apply contains_nil; exact Ho).
  induction Hq as [|q qs Hq1 Hqs IH].
  - destruct Hp as [|p ps Hp1 Hps]; constructor; auto.
    + rewrite <- (app_nil_r x); exact (M [] [] N N).
    + exact (M [] p N Hp1).
  - destruct qs as [|q2 qs].
    + destruct Hp as [|p ps Hp1 Hps]; constructor; auto.
      rewrite <- (app_nil_r x), app_assoc, <- app_assoc; exact (M q [] Hq1 N).
    + change (attach x (q :: q2 :: qs) ps) with (q :: attach x (q2 :: qs) ps).
      constructor; auto.
Qed.

Lemma glue_no (old x : str) (qss : list (list str)) :
  old <> [] -> x <> [] -> (forall c, In c x -> ~ In c old) ->
  Forall (Forall (fun q => contains old q = false)) qss ->
  Forall (fun q => contains old q = false) (glue x qss).
Proof.
  intros Ho Hx Hc H; induction H as [|qs qss Hqs Hqss IH]; [constructor|].
  destruct qss as [|qs2 qss]; [exact Hqs|].
  change (glue x (qs :: qs2 :: qss)) with (attach x qs (glue x (qs2 :: qss))).
  apply attach_no; auto.
Qed.

Lemma chars_disjoint_spec (x old : str) :
  forallb (fun c => negb (existsb (ch_eqb c) old)) x = true ->
  forall c, In c x -> ~ In c old.
Proof.
  intros H c Hx Ho; rewrite forallb_forall in H; specialize (H c Hx).
  apply negb_true_iff in H.
  assert (E : existsb (ch_eqb c) old = true)
    by (apply existsb_exists; exists c; split; [exact Ho | apply ch_eqb_true; reflexivity]).
  congruence.
Qed.

(** C9 (amended): with an empty table the result is the template after the
    two fixed-token replacements, [TEMPLATE_NAME] first, and nothing else.
    A template without either token is returned byte for byte.  Split the
    template at its [TEMPLATE_NAME] occurrences into segments, and each
    segment at its [CURRENT_DATE] occurrences into pieces ([qss]): when no
    piece glued around an inserted file stem holds [CURRENT_DATE], the
    output is the template with the stem in place of each [TEMPLATE_NAME],
    the date in place of each [CURRENT_DATE] and every other byte
    unchanged.  This holds in particular when the stem is not empty and
    shares no character with [CURRENT_DATE], or when the template has no
    [TEMPLATE_NAME]. *)
Theorem C9_empty_table_amended :
  (forall raw f d, replace_fields raw [] f d
                   = Some (py_replace (s2l "CURRENT_DATE") d
                             (py_replace (s2l "TEMPLATE_NAME") (template_name_of f) raw))) /\
  (forall raw f d, contains (s2l "TEMPLATE_NAME") raw = false ->
                   contains (s2l "CURRENT_DATE") raw = false ->
                   replace_fields raw [] f d = Some raw) /\
  (forall qss f d,
     Forall (fun qs => contains (s2l "TEMPLATE_NAME") (join (s2l "CURRENT_DATE") qs) = false)
       qss ->
     Forall (fun p => contains (s2l "CURRENT_DATE") p = false) (glue (template_name_of f) qss) ->
     replace_fields (join (s2l "TEMPLATE_NAME") (map (join (s2l "CURRENT_DATE")) qss)) [] f d
     = Some (join (template_name_of f) (map (join d) qss))) /\
  (forall qss f d,
     Forall (fun qs => contains (s2l "TEMPLATE_NAME") (join (s2l "CURRENT_DATE") qs) = false)
       qss ->
     Forall (Forall (fun q => contains (s2l "CURRENT_DATE") q = false)) qss ->
     (length qss <= 1 \/
      (template_name_of f <> [] /\
       forall c, In c (template_name_of f) -> ~ In c (s2l "CURRENT_DATE"))) ->
     replace_fields (join (s2l "TEMPLATE_NAME") (map (join (s2l "CURRENT_DATE")) qss)) [] f d
     = Some (join (template_name_of f) (map (join d) qss))).
Proof.
  assert (G : forall qss f d,
     Forall (fun qs => contains (s2l "TEMPLATE_NAME") (join (s2l "CURRENT_DATE") qs) = false)
       qss ->
     Forall (fun p => contains (s2l "CURRENT_DATE") p = false) (glue (template_name_of f) qss) ->
     replace_fields (join (s2l "TEMPLATE_NAME") (map (join (s2l "CURRENT_DATE")) qss)) [] f d
     = Some (join (template_name_of f) (map (join d) qss))).
  { intros qss f d Ht Hg; rewrite replace_fields_empty; unfold replace_fixed; f_equal.
    rewrite py_replace_join
      by first [discriminate | exact template_name_border_free | apply Forall_map; exact Ht].
    rewrite (join_glue (s2l "CURRENT_DATE") (template_name_of f) qss),
            (join_glue d (template_name_of f) qss).
    apply py_replace_join; [discriminate | exact current_date_border_free | exact Hg]. }
  split; [intros; reflexivity|].
  split.
  - intros raw f d H1 H2; rewrite replace_fields_empty; unfold replace_fixed.
    rewrite (py_replace_absent _ _ raw) by (auto; discriminate).
    rewrite py_replace_absent by (auto; discriminate); reflexivity.
  - split; [exact G|].
    intros qss f d Ht Hq Hs; apply G; [exact Ht|].
    destruct Hs as [Hl | [Hne Hc]].
    + destruct qss as [|qs [|qs2 qss]]; simpl in Hl |- *; [constructor | | lia].
      inversion Hq; assumption.
    + apply glue_no; [discriminate | exact Hne | exact Hc | exact Hq].
Qed.

(** The original example of the claim, with a date token in a text element
    and a stem without any letter of [CURRENT_DATE]; and a stem made only
    of such letters that still forms no date token with its neighbours. *)
Lemma C9_empty_table_amended_witness :
  replace_fields (s2l "<d>CURRENT_DATE</d><t>TEMPLATE_NAME</t>") [] (s2l "cfg/Viper.xml")
    (s2l "18/10/2026") = Some (s2l "<d>18/10/2026</d><t>Viper</t>") /\
  replace_fields (s2l "<t>TEMPLATE_NAME</t><d>CURRENT_DATE</d>") [] (s2l "HORNET.xml")
    (s2l "18/10/2026") = Some (s2l "<t>HORNET</t><d>18/10/2026</d>").
Proof.
  destruct C9_empty_table_amended as (_ & _ & H3 & H4).
  split.
  - change (s2l "<d>CURRENT_DATE</d><t>TEMPLATE_NAME</t>")
      with (join (s2l "TEMPLATE_NAME") (map (join (s2l "CURRENT_DATE"))
              [[s2l "<d>"; s2l "</d><t>"]; [s2l "</t>"]])).
    change (s2l "<d>18/10/2026</d><t>Viper</t>")
      with (join (template_name_of (s2l "cfg/Viper.xml")) (map (join (s2l "18/10/2026"))
              [[s2l "<d>"; s2l "</d><t>"]; [s2l "</t>"]])).
    apply H4.
    + vm_compute; repeat constructor.
    + vm_compute; repeat constructor.
    + right; split; [vm_compute; discriminate|].
      apply chars_disjoint_spec; vm_compute; reflexivity.
  - change (s2l "<t>TEMPLATE_NAME</t><d>CURRENT_DATE</d>")
      with (join (s2l "TEMPLATE_NAME") (map (join (s2l "CURRENT_DATE"))
              [[s2l "<t>"]; [s2l "</t><d>"; s2l "</d>"]])).
    change (s2l "<t>HORNET</t><d>18/10/2026</d>")
      with (join (template_name_of (s2l "HORNET.xml")) (map (join (s2l "18/10/2026"))
              [[s2l "<t>"]; [s2l "</t><d>"; s2l "</d>"]])).
    apply H3.
    + vm_compute; repeat constructor.
    + vm_compute; repeat constructor.
Defined.

(** ** The exit status *)

Definition argv_ok (argv : list str) : Prop := length argv = 3 \/ length argv = 4.

(** The exceptions raised before the [try] of [main] and not caught:
    [output_dir.mkdir] fails, [with_suffix] raises [ValueError] (an XML
    path with an empty name), or [_parse] meets an error of opening or
    reading the file other than a missing file or a malformed document. *)
Definition crashes_before_try (argv : list str) (E : env) : Prop :=
  (length argv = 4 /\ mkdir_ok E = false) \/ output_file argv = None \/
  xml_in E = XmlUnreadable.

(** An input file that does not exist. *)
Definition env_missing_xml : env :=
  {| xml_in := XmlMissing; svg_in := Some (s2l "<svg></svg>"); mkdir_ok := true;
     pdf_ok := fun _ => true; today := s2l "18/10/2026" |}.

(** C8 (counterexample): with a missing input document [main] logs the
    error and returns, so the process exits with status 0. *)
Lemma C8_missing_input_exits_zero :
  exit_status (main [s2l "diagram_generator.py"; s2l "missing.xml"; s2l "t.svg"]
                 env_missing_xml) = 0.
Proof. reflexivity. Qed.

(** C8 (amended): the status is 1 exactly when the number of arguments is
    wrong or an exception is raised before the [try] (the output directory
    cannot be created, the XML path has an empty name, the XML file cannot
    be opened or read for a reason other than not existing), and 0
    otherwise, whatever fails later; after an extraction failure no
    template is read and nothing is written; a PDF is written only when
    every step succeeds, with [str(xml_file)] as the file name given to
    [replace_fields]. *)
Theorem C8_exit_status_amended (argv : list str) (E : env) :
  (exit_status (main argv E) = 1 <-> ~ argv_ok argv \/ crashes_before_try argv E) /\
  (exit_status (main argv E) = 0 <-> argv_ok argv /\ ~ crashes_before_try argv E) /\
  (parse (xml_in E) = Ret None \/ parse (xml_in E) = Raise ->
   pdf_written (main argv E) = None /\ template_read (main argv E) = false) /\
  (forall out, pdf_written (main argv E) = Some out ->
   argv_ok argv /\ ~ crashes_before_try argv E /\
   exists mappings raw, parse (xml_in E) = Ret (Some mappings) /\ svg_in E = Some raw /\
     replace_fields raw mappings (path_to_str (nth 1 argv [])) (today E) = Some out /\
     pdf_ok E out = true).
Proof.
  unfold main, argv_ok, crashes_before_try, exit_one.
  destruct (Nat.eqb (length argv) 3 || Nat.eqb (length argv) 4) eqn:Hn;
    [apply orb_true_iff in Hn; rewrite !Nat.eqb_eq in Hn
    |apply orb_false_iff in Hn; rewrite !Nat.eqb_neq in Hn]; cbn [negb].
  2: { cbn [exit_status pdf_written template_read].
       split; [split; [intros _; left; tauto | reflexivity]|].
       split; [split; [discriminate | tauto]|].
       split; [auto | discriminate]. }
  destruct (Nat.eqb (length argv) 4 && negb (mkdir_ok E)) eqn:Hm.
  { apply andb_true_iff in Hm as [H4 Hm]; apply Nat.eqb_eq in H4.
    destruct (mkdir_ok E); [discriminate|].
    cbn [exit_status pdf_written template_read].
    split; [split; [intros _; right; left; tauto | reflexivity]|].
    split; [split; [discriminate | tauto]|].
    split; [auto | discriminate]. }
  assert (Hm' : ~ (length argv = 4 /\ mkdir_ok E = false)).
  { intros [H4 H0]; rewrite H4, H0 in Hm; discriminate. }
  clear Hm.
  destruct (output_file argv) as [o|] eqn:Ho.
  2: { cbn [exit_status pdf_written template_read].
       split; [split; [intros _; right; right; left; reflexivity | reflexivity]|].
       split; [split; [discriminate | tauto]|].
       split; [auto | discriminate]. }
  assert (Ho' : Some o <> None) by discriminate.
  destruct (xml_in E) eqn:Hx; cbn [parse].
  4: destruct (svg_in E) as [raw|] eqn:Hs.
  4: destruct (replace_fields raw (extract root) (path_to_str (nth 1 argv [])) (today E))
       as [out|] eqn:Hr.
  4: destruct (pdf_ok E out) eqn:Hk.
  all: cbn [exit_status pdf_written template_read].
  (* the cases that end with status 0 *)
  all: try (split; [split; [discriminate | intros [H|H]; [tauto|];
                     destruct H as [H|[H|H]]; [tauto|congruence|discriminate]]|];
            split; [split; [intros _; split; [tauto|];
                     intros [H|[H|H]]; [tauto|congruence|discriminate] | reflexivity]|]).
  all: try (split; [intros [H|H]; discriminate|]).
  (* [Raise] *)
  all: try (split; [split; [intros _; right; right; right; reflexivity | reflexivity]|];
            split; [split; [discriminate | tauto]|];
            split; [auto | discriminate]).
  all: try (split; [auto|]).
  all: try discriminate.
  injection H as <-; split.
  - intros [H|[H|H]]; [tauto|congruence|discriminate].
  - eauto 10.
Qed.

Lemma C8_exit_status_amended_witness :
  (pdf_written (main [s2l "diagram_generator.py"; s2l "missing.xml"; s2l "t.svg"]
                  env_missing_xml) = None /\
   template_read (main [s2l "diagram_generator.py"; s2l "missing.xml"; s2l "t.svg"]
                    env_missing_xml) = false) /\
  exit_status (main [s2l "p"; s2l ""; s2l "t.svg"] env_missing_xml) = 1.
Proof.
  split.
  - apply (C8_exit_status_amended [s2l "diagram_generator.py"; s2l "missing.xml"; s2l "t.svg"]
             env_missing_xml).
    left; reflexivity.
  - apply (C8_exit_status_amended [s2l "p"; s2l ""; s2l "t.svg"] env_missing_xml).
    right; right; left; reflexivity.
Defined.

(** ** The keyed passes *)

(** C3 (failing input): [pattern.sub] reads the replacement string as a
    template, so the value [C:\temp] is written with a tab in place of
    [\t] and the value [\d] raises [re.error]; the pattern itself matches
    case-insensitively around whitespace and a key without a placeholder
    leaves the text as it is. *)
Theorem C3_value_read_as_template :
  replace_fields (s2l ">K<") [(s2l "K", s2l "C:\temp")] (s2l "a.xml") (s2l "18/10/2026")
    = Some (s2l ">C:" ++ [chr 9] ++ s2l "emp<") /\
  replace_fields (s2l ">K<") [(s2l "K", s2l "\d")] (s2l "a.xml") (s2l "18/10/2026")
    = None /\
  replace_fields (s2l "<t> b10 </t><t>B10</t>") [(s2l "B10", s2l "Gear")]
    (s2l "a.xml") (s2l "18/10/2026") = Some (s2l "<t>Gear</t><t>Gear</t>") /\
  replace_fields (s2l "<t>B1 0</t>") [(s2l "B10", s2l "Gear")] (s2l "a.xml") (s2l "18/10/2026")
    = Some (s2l "<t>B1 0</t>").
Proof. repeat split; reflexivity. Qed.

(** C1 (counterexample): with [{B10: "B1", B1: "x"}] the placeholder of the
    longer key [B10] ends holding [x], not its own value [B1]. *)
Lemma C1_value_rewritten_by_shorter_key :
  replace_fields (s2l ">B10<>B1<") [(s2l "B10", s2l "B1"); (s2l "B1", s2l "x")]
    (s2l "a.xml") (s2l "18/10/2026") = Some (s2l ">x<>x<").
Proof. reflexivity. Qed.

(** C1 (amended): take a table of two trimmed keys [K1] and [K2], where [K2]
    is a proper prefix of [K1], the keys hold no [<] or [>], the values no
    backslash, in either dictionary order, and the value of [K1], written as
    [>value<], is not matched by the pattern of [K2].  If the text after the
    fixed tokens holds the placeholders [>K1<] and [>K2<] (in either order),
    render turns [>K1<] into [>sanitize(V1)<] and [>K2<] into
    [>sanitize(V2)<], and rewrites the text around them piece by piece with
    one function that does not depend on that text. *)
Theorem C1_longest_first_amended (K1 K2 r V1 V2 : str) (m : dict) :
  K1 = K2 ++ r -> r <> [] -> strip K1 = K1 -> strip K2 = K2 -> K2 <> [] -> no_angle K1 ->
  no_backslash V1 -> no_backslash V2 ->
  match_at K2 (filled V1) = None ->
  (m = [(K1, V1); (K2, V2)] \/ m = [(K2, V2); (K1, V1)]) ->
  exists g : str -> str,
    forall raw xml_filename current_date a b c P Q WP WQ : str,
    ((P, Q, WP, WQ) = (placeholder K1, placeholder K2, filled V1, filled V2) \/
     (P, Q, WP, WQ) = (placeholder K2, placeholder K1, filled V2, filled V1)) ->
    replace_fixed raw xml_filename current_date = a ++ P ++ b ++ Q ++ c ->
    replace_fields raw m xml_filename current_date = Some (g a ++ WP ++ g b ++ WQ ++ g c).
Proof.
  intros HK Hr Hs1 Hs2 Hne2 Ha1 Hv1 Hv2 Hmiss Hm.
  assert (Hne1 : K1 <> []) by (subst K1; destruct K2; [contradiction | discriminate]).
  assert (Ha2 : no_angle K2) by (subst K1; exact (no_angle_prefix _ _ Ha1)).
  assert (Har : no_angle r) by (intros x Hx; apply Ha1; subst K1; apply in_or_app; right; exact Hx).
  assert (Hl : length K2 < length K1)
    by (subst K1; rewrite length_app; destruct r; [contradiction | simpl; lia]).
  destruct (two_keys_sorted K1 K2 V1 V2 m Hl Hm) as (Hsort & Hg1 & Hg2).
  exists (fun x => sub_go K2 (map TLit (filled V2)) 0 (sub_go K1 (map TLit (filled V1)) 0 x)).
  intros raw f d a b c P Q WP WQ HPQ Hfix.
  assert (Hshort : match_at K1 (placeholder K2) = None).
  { rewrite HK, <- (app_nil_r (placeholder K2)).
    apply match_at_placeholder_short; auto. }
  pose proof (sub_go_hit K1 (filled V1)) as H1hit.
  pose proof (sub_go_miss K1 (map TLit (filled V1)) K2) as H1miss.
  pose proof (sub_go_miss K2 (map TLit (filled V2)) (sanitize V1)) as H2miss.
  pose proof (sub_go_hit K2 (filled V2)) as H2hit.
  unfold replace_fields; rewrite Hfix, Hsort; cbn [replace_keys].
  destruct HPQ as [E|E]; injection E as -> -> -> ->.
  - rewrite (replace_key_found m _ K1 V1 a (b ++ placeholder K2 ++ c)) by auto.
    rewrite (sub_go_two K1 (map TLit (filled V1)) a b c K1 K2 (filled V1) (placeholder K2)) by auto.
    cbn [replace_keys].
    rewrite (replace_key_found m _ K2 V2 (sub_go K1 (map TLit (filled V1)) 0 a ++ filled V1 ++ sub_go K1 (map TLit (filled V1)) 0 b)
               (sub_go K1 (map TLit (filled V1)) 0 c)) by (auto; rewrite <- !app_assoc; reflexivity).
    cbn [replace_keys].
    rewrite (sub_go_two K2 (map TLit (filled V2)) _ _ _ (sanitize V1) K2 (filled V1) (filled V2))
      by (auto; intro y; first [apply H2miss | apply H2hit]; auto using no_angle_sanitize).
    reflexivity.
  - rewrite (replace_key_found m _ K1 V1 (a ++ placeholder K2 ++ b) c)
      by (auto; rewrite <- !app_assoc; reflexivity).
    rewrite (sub_go_two K1 (map TLit (filled V1)) a b c K2 K1 (placeholder K2) (filled V1)) by auto.
    cbn [replace_keys].
    rewrite (replace_key_found m _ K2 V2 (sub_go K1 (map TLit (filled V1)) 0 a)
               (sub_go K1 (map TLit (filled V1)) 0 b ++ filled V1 ++ sub_go K1 (map TLit (filled V1)) 0 c)) by auto.
    cbn [replace_keys].
    rewrite (sub_go_two K2 (map TLit (filled V2)) _ _ _ K2 (sanitize V1) (filled V2) (filled V1))
      by (auto; intro y; first [apply H2miss | apply H2hit]; auto using no_angle_sanitize).
    reflexivity.
Qed.

Lemma C1_longest_first_amended_witness :
  replace_fields (s2l "<t>B1</t><t>B10</t>") [(s2l "B1", s2l "x"); (s2l "B10", s2l "y")]
    (s2l "a.xml") (s2l "18/10/2026") = Some (s2l "<t>x</t><t>y</t>") /\
  exists g : str -> str,
    replace_fields (s2l "<t>B1</t><t>B10</t>") [(s2l "B1", s2l "x"); (s2l "B10", s2l "y")]
      (s2l "a.xml") (s2l "18/10/2026")
    = Some (g (s2l "<t") ++ s2l ">x<" ++ g (s2l "/t><t") ++ s2l ">y<" ++ g (s2l "/t>")).
Proof.
  split; [reflexivity|].
  destruct (C1_longest_first_amended (s2l "B10") (s2l "B1") (s2l "0") (s2l "y") (s2l "x")
              [(s2l "B1", s2l "x"); (s2l "B10", s2l "y")]) as [g Hg].
  - reflexivity.
  - discriminate.
  - reflexivity.
  - reflexivity.
  - discriminate.
  - intros ch Hc; simpl in Hc.
    repeat (destruct Hc as [<- | Hc]; [split; discriminate |]); destruct Hc.
  - intros ch Hc; simpl in Hc.
    repeat (destruct Hc as [<- | Hc]; [discriminate |]); destruct Hc.
  - intros ch Hc; simpl in Hc.
    repeat (destruct Hc as [<- | Hc]; [discriminate |]); destruct Hc.
  - vm_compute; reflexivity.
  - right; reflexivity.
  - exists g; apply (Hg (s2l "<t>B1</t><t>B10</t>") (s2l "a.xml") (s2l "18/10/2026")
                        (s2l "<t") (s2l "/t><t") (s2l "/t>")
                        (placeholder (s2l "B1")) (placeholder (s2l "B10"))).
    + right; reflexivity.
    + vm_compute; reflexivity.
Defined.

(** C10: a value written by an earlier pass is text like any other for the
    passes after it.  In a table of two keys where [K1] is processed before
    [K2] (keys without [<] or [>], [K1] trimmed and non-empty, values without
    backslash), if the value of [K1] written as [>value<] is matched as a
    whole by the pattern of [K2], then the placeholder [>K1<] ends holding
    [>sanitize(V2)<], the value of [K2]. *)
Theorem C10_later_pass_rewrites_value (K1 K2 V1 V2 : str) (m : dict) :
  sort_by_len_desc (dict_keys m) = [K1; K2] ->
  dict_get m K1 = Some V1 -> dict_get m K2 = Some V2 ->
  strip K1 = K1 -> K1 <> [] -> no_angle K1 -> no_angle K2 ->
  no_backslash V1 -> no_backslash V2 ->
  match_at K2 (filled V1) = Some (length (filled V1)) ->
  exists g : str -> str,
    forall raw xml_filename current_date a c : str,
    replace_fixed raw xml_filename current_date = a ++ placeholder K1 ++ c ->
    replace_fields raw m xml_filename current_date = Some (g a ++ filled V2 ++ g c).
Proof.
  intros Hsort Hg1 Hg2 Hs1 Hne1 Ha1 Ha2 Hv1 Hv2 Hwhole.
  exists (fun x => sub_go K2 (map TLit (filled V2)) 0 (sub_go K1 (map TLit (filled V1)) 0 x)).
  intros raw f d a c Hfix.
  unfold replace_fields; rewrite Hfix, Hsort; cbn [replace_keys].
  rewrite (replace_key_found m _ K1 V1 a c) by auto.
  rewrite sub_go_at_placeholder, sub_go_hit by auto.
  cbn [replace_keys].
  rewrite (replace_key_matched m _ K2 V2 (sub_go K1 (map TLit (filled V1)) 0 a)
             (filled V1 ++ sub_go K1 (map TLit (filled V1)) 0 c)); auto.
  - cbn [replace_keys].
    change (filled V1 ++ sub_go K1 (map TLit (filled V1)) 0 c)
      with (placeholder (sanitize V1) ++ sub_go K1 (map TLit (filled V1)) 0 c).
    rewrite sub_go_at_placeholder by exact Ha2.
    rewrite sub_go_whole by auto using no_angle_sanitize.
    reflexivity.
  - unfold filled; rewrite match_at_placeholder_ext by exact Ha2.
    unfold filled in Hwhole; rewrite Hwhole; discriminate.
Qed.

Lemma C10_later_pass_rewrites_value_witness :
  replace_fields (s2l "<t>B10</t>") [(s2l "B10", s2l "B1"); (s2l "B1", s2l "x")]
    (s2l "a.xml") (s2l "18/10/2026") = Some (s2l "<t>x</t>") /\
  exists g : str -> str,
    replace_fields (s2l "<t>B10</t>") [(s2l "B10", s2l "B1"); (s2l "B1", s2l "x")]
      (s2l "a.xml") (s2l "18/10/2026")
    = Some (g (s2l "<t") ++ s2l ">x<" ++ g (s2l "/t>")).
Proof.
  split; [reflexivity|].
  destruct (C10_later_pass_rewrites_value (s2l "B10") (s2l "B1") (s2l "B1") (s2l "x")
              [(s2l "B10", s2l "B1"); (s2l "B1", s2l "x")]) as [g Hg].
  - reflexivity.
  - reflexivity.
  - reflexivity.
  - reflexivity.
  - discriminate.
  - intros ch Hc; simpl in Hc.
    repeat (destruct Hc as [<- | Hc]; [split; discriminate |]); destruct Hc.
  - intros ch Hc; simpl in Hc.
    repeat (destruct Hc as [<- | Hc]; [split; discriminate |]); destruct Hc.
  - intros ch Hc; simpl in Hc.
    repeat (destruct Hc as [<- | Hc]; [discriminate |]); destruct Hc.
  - intros ch Hc; simpl in Hc.
    repeat (destruct Hc as [<- | Hc]; [discriminate |]); destruct Hc.
  - vm_compute; reflexivity.
  - exists g; apply (Hg (s2l "<t>B10</t>") (s2l "a.xml") (s2l "18/10/2026")
                        (s2l "<t") (s2l "/t>")).
    vm_compute; reflexivity.
Defined.

(** * Further properties of the code *)

(** ** The order of the keys *)

Lemma insert_by_len_perm (k : str) (l : list str) : Permutation (insert_by_len k l) (k :: l).
Proof.
  induction l as [|k' l IH]; simpl; [auto|].
  destruct (length k <? length k'); [|auto].
  rewrite IH; apply perm_swap.
Qed.

Lemma insert_by_len_sorted (k : str) (l : list str) :
  Sorted (fun a b => length b <= length a) l ->
  Sorted (fun a b => length b <= length a) (insert_by_len k l).
Proof.
  induction l as [|k' l IH]; intro H; simpl; [auto|].
  destruct (length k <? length k') eqn:E.
  - apply Nat.ltb_lt in E.
    apply Sorted_inv in H as [Hs Hh].
    constructor; [apply IH; exact Hs|].
    destruct l as [|k'' l]; simpl; [constructor; lia|].
    inversion Hh; subst.
    destruct (length k <? length k''); constructor; lia.
  - apply Nat.ltb_ge in E; constructor; [exact H | constructor; lia].
Qed.

Lemma insert_by_len_filter (n : nat) (k : str) (l : list str) :
  filter (fun x => length x =? n) (insert_by_len k l) = filter (fun x => length x =? n) (k :: l).
Proof.
  induction l as [|k' l IH]; simpl; [reflexivity|].
  destruct (length k <? length k') eqn:E; [|reflexivity].
  apply Nat.ltb_lt in E; simpl; rewrite IH; simpl.
  destruct (length k =? n) eqn:E1, (length k' =? n) eqn:E2; auto.
  apply Nat.eqb_eq in E1, E2; lia.
Qed.

(** X1: [sorted(keys, key=len, reverse=True)] handles every key exactly
    once and never puts a shorter key before a longer one. *)
Theorem X1_keys_sorted_by_length (l : list str) :
  Permutation (sort_by_len_desc l) l /\
  Sorted (fun a b => length b <= length a) (sort_by_len_desc l).
Proof.
  induction l as [|k l [IHp IHs]]; simpl; [split; constructor|].
  split.
  - rewrite insert_by_len_perm; constructor; exact IHp.
  - apply insert_by_len_sorted; exact IHs.
Qed.

(** X2: the sort is stable: keys of one length keep the order they have in
    the dictionary. *)
Theorem X2_equal_length_keys_keep_order (n : nat) (l : list str) :
  filter (fun x => length x =? n) (sort_by_len_desc l) = filter (fun x => length x =? n) l.
Proof.
  induction l as [|k l IH]; simpl; [reflexivity|].
  rewrite insert_by_len_filter; simpl; rewrite IH; reflexivity.
Qed.

Lemma sort_by_len_desc_perm (l : list str) : Permutation (sort_by_len_desc l) l.
Proof.
  induction l as [|k l IH]; simpl; [constructor|].
  rewrite insert_by_len_perm; constructor; exact IH.
Qed.

(** ** What the placeholder pattern matches *)

Lemma is_space_py_lower (c : ascii) : is_space (py_lower c) = is_space c.
Proof. destruct c as [[] [] [] [] [] [] [] []]; reflexivity. Qed.

Lemma is_space_not_angle (c : ascii) : is_space c = true -> is_angle c = false.
Proof.
  intro H; unfold is_angle.
  destruct (ch_eqb c "<") eqn:E1; [apply ch_eqb_true in E1; subst; discriminate|].
  destruct (ch_eqb c ">") eqn:E2; [apply ch_eqb_true in E2; subst; discriminate|].
  reflexivity.
Qed.

Lemma ci_prefixb_split (K u : str) :
  ci_prefixb K u = true -> exists K' r, u = K' ++ r /\ map py_lower K' = map py_lower K.
Proof.
  revert u; induction K as [|k K IH]; intros [|x u]; simpl; try discriminate.
  - intros _; exists [], []; auto.
  - intros _; exists [], (x :: u); auto.
  - intro H; apply andb_true_iff in H as [H1 H2].
    apply IH in H2 as (K' & r & -> & E).
    exists (x :: K'), r; split; [reflexivity|].
    unfold ci_eqb in H1; apply ch_eqb_true in H1; simpl; rewrite E, H1; reflexivity.
Qed.

Lemma ci_prefixb_map (K K' r : str) :
  map py_lower K' = map py_lower K -> ci_prefixb K (K' ++ r) = true.
Proof.
  revert K'; induction K as [|k K IH]; intros [|x K'] E; simpl in *; try discriminate; auto.
  injection E as E1 E2; unfold ci_eqb; rewrite E1, ch_eqb_refl, IH; auto.
Qed.

Lemma lead_spaces_firstn (u : str) (i : nat) :
  i <= lead_spaces u -> forallb is_space (firstn i u) = true.
Proof.
  revert i; induction u as [|c u IH]; intros [|i]; cbn [lead_spaces firstn forallb]; auto.
  destruct (is_space c) eqn:E; [|lia].
  intro H; rewrite IH; auto; lia.
Qed.

Lemma lead_spaces_spaces (w y : str) :
  forallb is_space w = true -> lead_spaces (w ++ y) = length w + lead_spaces y.
Proof.
  induction w as [|c w IH]; cbn [app lead_spaces forallb length]; auto.
  intro H; apply andb_true_iff in H as [H1 H2]; rewrite H1, IH; auto.
Qed.

Lemma try_lead_some (K t : str) (m n : nat) :
  try_lead K t m = Some n ->
  exists i k, i <= m /\ after_key K (skipn i t) = Some k /\ n = i + k.
Proof.
  induction m as [|m IH]; cbn [try_lead];
    destruct (after_key K (skipn _ t)) as [k|] eqn:A; intro H; try discriminate.
  - injection H as <-; exists 0, k; auto.
  - injection H as <-; exists (S m), k; auto.
  - destruct (IH H) as (i & k & Hi & Ha & ->); exists i, k; auto.
Qed.

Lemma after_key_some (K u : str) (k : nat) :
  after_key K u = Some k ->
  exists K' w2 r, u = K' ++ w2 ++ "<"%char :: r /\ map py_lower K' = map py_lower K /\
                  forallb is_space w2 = true /\ k = length K' + length w2 + 1.
Proof.
  unfold after_key; destruct (ci_prefixb K u) eqn:P; [|discriminate].
  apply ci_prefixb_split in P as (K' & r0 & -> & E).
  assert (Hl : length K' = length K) by (rewrite <- (length_map py_lower K'), E, length_map; reflexivity).
  rewrite <- Hl, skipn_app, skipn_all, Nat.sub_diag; cbn [app skipn].
  destruct (nth_error r0 (lead_spaces r0)) as [c|] eqn:N; [|discriminate].
  destruct (ch_eqb c "<") eqn:C; [|discriminate]; apply ch_eqb_true in C; subst c.
  intro H; injection H as <-.
  apply nth_error_split in N as (w2 & r & Hr & Hw).
  exists K', w2, r; split; [rewrite Hr; reflexivity|].
  split; [exact E|]; split; [|lia].
  pose proof (lead_spaces_firstn r0 (lead_spaces r0) (le_n _)) as S.
  rewrite <- Hw, Hr, firstn_app, Nat.sub_diag, firstn_all in S.
  simpl in S; rewrite app_nil_r in S; exact S.
Qed.

Lemma match_at_shape (K s : str) (n : nat) :
  match_at K s = Some n ->
  exists w1 K' w2 rest,
    s = [">"%char] ++ w1 ++ K' ++ w2 ++ ["<"%char] ++ rest /\
    forallb is_space w1 = true /\ forallb is_space w2 = true /\
    map py_lower K' = map py_lower K /\ n = length w1 + length K' + length w2 + 2.
Proof.
  destruct s as [|c t]; [discriminate|]; cbn [match_at].
  destruct (ch_eqb c ">") eqn:C; [|intro H; discriminate H].
  apply ch_eqb_true in C; subst c.
  destruct (try_lead K t (lead_spaces t)) as [n0|] eqn:T; [|intro H; discriminate H].
  intro H; injection H as <-.
  apply try_lead_some in T as (i & k & Hi & A & ->).
  apply after_key_some in A as (K' & w2 & r & Hs & E & Hw2 & ->).
  assert (Hit : i < length t).
  { destruct (Nat.lt_ge_cases i (length t)) as [?|Hge]; auto.
    rewrite skipn_all2 in Hs by exact Hge.
    apply (f_equal (@length ascii)) in Hs; rewrite !length_app in Hs; simpl in Hs; lia. }
  exists (firstn i t), K', w2, r.
  split; [|split; [apply lead_spaces_firstn; exact Hi|]].
  - rewrite <- (firstn_skipn i t) at 1; rewrite Hs; reflexivity.
  - split; [exact Hw2|]; split; [exact E|].
    rewrite length_firstn; lia.
Qed.

Lemma try_lead_unfold (K t : str) (i : nat) :
  try_lead K t i =
  match after_key K (skipn i t) with
  | Some n => Some (i + n)
  | None => match i with O => None | S j => try_lead K t j end
  end.
Proof. destruct i; reflexivity. Qed.

Lemma match_at_accept (K w1 K' w2 y : str) :
  strip K = K -> K <> [] -> forallb is_space w1 = true -> forallb is_space w2 = true ->
  map py_lower K' = map py_lower K ->
  match_at K ([">"%char] ++ w1 ++ K' ++ w2 ++ ["<"%char] ++ y)
  = Some (length w1 + length K + length w2 + 2).
Proof.
  intros Hs Hne H1 H2 E.
  assert (Hl : length K' = length K)
    by (rewrite <- (length_map py_lower K'), E, length_map; reflexivity).
  assert (Hk : lead_spaces (K' ++ w2 ++ "<"%char :: y) = 0).
  { destruct K as [|k K]; [contradiction|].
    destruct K' as [|k' K']; [discriminate|].
    injection E as E _.
    cbn [app lead_spaces].
    rewrite <- is_space_py_lower, E, is_space_py_lower, (strip_fixed_head _ _ _ Hs eq_refl).
    reflexivity. }
  cbn [app]; unfold match_at; rewrite ch_eqb_refl.
  rewrite lead_spaces_spaces, Hk, Nat.add_0_r by exact H1.
  rewrite try_lead_unfold, skipn_app, Nat.sub_diag, skipn_all; cbn [app skipn].
  unfold after_key; rewrite ci_prefixb_map by exact E.
  rewrite <- Hl, skipn_app, Nat.sub_diag, skipn_all; cbn [app skipn].
  rewrite lead_spaces_spaces by exact H2; cbn [lead_spaces].
  replace (is_space "<"%char) with false by reflexivity.
  rewrite nth_error_app2, Nat.add_0_r, Nat.sub_diag by lia; cbn [nth_error].
  rewrite ch_eqb_refl; f_equal; lia.
Qed.

(** X3: for a trimmed non-empty key, the pattern [>\s*KEY\s*<] with
    [re.IGNORECASE] matches at the front of a text exactly when the text
    starts with [>], whitespace, the key up to letter case (Python's
    [lower]), whitespace and [<]; the match spans exactly these. *)
Theorem X3_placeholder_pattern (K s : str) (n : nat) :
  strip K = K -> K <> [] ->
  (match_at K s = Some n <->
   exists w1 K' w2 rest,
     s = [">"%char] ++ w1 ++ K' ++ w2 ++ ["<"%char] ++ rest /\
     forallb is_space w1 = true /\ forallb is_space w2 = true /\
     map py_lower K' = map py_lower K /\ n = length w1 + length K' + length w2 + 2).
Proof.
  intros Hs Hne; split; [apply match_at_shape|].
  intros (w1 & K' & w2 & rest & -> & H1 & H2 & E & ->).
  rewrite match_at_accept by assumption.
  rewrite <- (length_map py_lower K'), E, length_map; reflexivity.
Qed.

Lemma X3_placeholder_pattern_witness :
  exists w1 K' w2 rest,
    s2l ">  b10	<tail" = [">"%char] ++ w1 ++ K' ++ w2 ++ ["<"%char] ++ rest /\
    forallb is_space w1 = true /\ forallb is_space w2 = true /\
    map py_lower K' = map py_lower (s2l "B10") /\ 8 = length w1 + length K' + length w2 + 2.
Proof.
  apply (proj1 (X3_placeholder_pattern (s2l "B10") (s2l ">  b10	<tail") 8
                  eq_refl ltac:(discriminate))).
  vm_compute; reflexivity.
Defined.

(** ** The keyed passes as a whole *)

Lemma spaces_no_angle (w : str) : forallb is_space w = true -> no_angle w.
Proof.
  intros H c Hc; rewrite forallb_forall in H; specialize (H c Hc).
  apply is_space_not_angle in H; unfold is_angle in H; apply orb_false_iff in H as [H1 H2].
  split; intros ->; [rewrite ch_eqb_refl in H1 | rewrite ch_eqb_refl in H2]; discriminate.
Qed.

Lemma no_angle_ci_same (K K' : str) :
  no_angle K -> map py_lower K' = map py_lower K -> no_angle K'.
Proof.
  revert K; induction K' as [|c K' IH]; intros [|k K] HK E; try discriminate.
  - intros x [].
  - injection E as E1 E2; intros x [<-|Hx].
    + destruct (HK k (or_introl eq_refl)) as [Hk1 Hk2]; split; intro Hc; subst.
      * apply Hk1; apply (py_lower_angle k "<"); [left; reflexivity|].
        rewrite <- E1; reflexivity.
      * apply Hk2; apply (py_lower_angle k ">"); [right; reflexivity|].
        rewrite <- E1; reflexivity.
    + apply (IH K); auto; intros y Hy; apply HK; right; exact Hy.
Qed.

Lemma markup_go_skip (X r : str) : no_angle X -> markup_go false (X ++ r) = markup_go false r.
Proof.
  induction X as [|x X IH]; intro H; [reflexivity|]; cbn [app markup_go].
  destruct (H x (or_introl eq_refl)) as [H1 H2].
  rewrite (proj2 (ch_eqb_false x "<") H1), (proj2 (ch_eqb_false x ">") H2).
  apply IH; intros y Hy; apply H; right; exact Hy.
Qed.

Lemma markup_go_element (st : bool) (X r : str) :
  no_angle X -> markup_go st (">"%char :: X ++ "<"%char :: r) = ">"%char :: "<"%char :: markup_go true r.
Proof.
  intro H; change (markup_go st (">"%char :: ?y)) with (">"%char :: markup_go false y).
  rewrite markup_go_skip by exact H; reflexivity.
Qed.

(** A pass keeps the markup when the key has no [<] or [>] and the
    replacement is an element text without them. *)
Lemma sub_go_markup (K X s : str) (st : bool) :
  no_angle K -> no_angle X ->
  markup_go st (sub_go K (map TLit (">"%char :: X ++ ["<"%char])) 0 s) = markup_go st s.
Proof.
  intros HK HX.
  remember (length s) as len eqn:El; revert s El st.
  induction len as [len IH] using lt_wf_ind; intros s El st.
  destruct s as [|c t]; [reflexivity|].
  destruct (match_at K (c :: t)) as [n|] eqn:M.
  - pose proof (match_at_bound _ _ _ M) as Hb.
    rewrite (sub_go_match _ _ _ _ M), expand_plain; cbn [app]; rewrite <- app_assoc; cbn [app].
    rewrite markup_go_element by exact HX.
    rewrite (IH (length (skipn n (c :: t)))); [| rewrite length_skipn; cbn [length] in *; lia
                                              | reflexivity].
    apply match_at_shape in M as (w1 & K' & w2 & rest & Hs & H1 & H2 & E & Hn).
    rewrite Hs, Hn.
    replace (length w1 + length K' + length w2 + 2)
      with (length ([">"%char] ++ w1 ++ K' ++ w2 ++ ["<"%char])) by (rewrite !length_app; simpl; lia).
    replace ([">"%char] ++ w1 ++ K' ++ w2 ++ ["<"%char] ++ rest)
      with (([">"%char] ++ w1 ++ K' ++ w2 ++ ["<"%char]) ++ rest)
      by (rewrite <- !app_assoc; reflexivity).
    rewrite skipn_app, skipn_all, Nat.sub_diag, app_nil_l; cbn [skipn].
    replace (([">"%char] ++ w1 ++ K' ++ w2 ++ ["<"%char]) ++ rest)
      with (">"%char :: (w1 ++ K' ++ w2) ++ "<"%char :: rest)
      by (rewrite <- !app_assoc; reflexivity).
    rewrite markup_go_element; [reflexivity|].
    apply no_angle_app; [apply spaces_no_angle; exact H1|].
    apply no_angle_app; [apply (no_angle_ci_same K); auto | apply spaces_no_angle; exact H2].
  - rewrite sub_go_no_match by exact M; cbn [markup_go] in El |- *; cbn [length] in El.
    destruct (ch_eqb c "<"); [|destruct (ch_eqb c ">"); [|destruct st]];
      rewrite (IH (length t) ltac:(lia) t eq_refl); reflexivity.
Qed.

Lemma dict_get_in (m : dict) (k v : str) : dict_get m k = Some v -> In (k, v) m.
Proof.
  induction m as [|[k' v'] m IH]; simpl; [discriminate|].
  destruct (str_eqb k' k) eqn:E; intro H; [injection H as <-; apply str_eqb_true in E; subst; auto|].
  right; auto.
Qed.

Definition values_ok (m : dict) : Prop := forall k v, In (k, v) m -> no_backslash v.

Lemma replace_key_value (m : dict) (raw k : str) :
  values_ok m ->
  replace_key m raw k = Some (if search k raw then sub_go k (map TLit (filled
      (match dict_get m k with Some v => v | None => [] end))) 0 raw else raw).
Proof.
  intro Hm; unfold replace_key.
  destruct (search k raw); [|reflexivity].
  unfold sub; change ([">"%char] ++ sanitize ?v ++ ["<"%char]) with (filled v).
  rewrite parse_template_plain; [reflexivity|].
  apply filled_no_backslash.
  destruct (dict_get m k) as [v|] eqn:G; [exact (Hm k v (dict_get_in _ _ _ G))|].
  intros c [].
Qed.

Lemma search_no_open (k s : str) : (forall c, In c s -> c <> ">"%char) -> search k s = false.
Proof.
  induction s as [|c s IH]; intro H; [reflexivity|].
  cbn [search]; rewrite match_at_not_open by (apply H; left; reflexivity).
  apply IH; intros x Hx; apply H; right; exact Hx.
Qed.

(** X4: when no value holds a backslash, the keyed passes never raise:
    [replace_fields] always produces a text. *)
Theorem X4_no_error_without_backslash (raw : str) (m : dict) (xml_filename current_date : str) :
  values_ok m -> exists out, replace_fields raw m xml_filename current_date = Some out.
Proof.
  intro Hm; unfold replace_fields.
  generalize (replace_fixed raw xml_filename current_date).
  induction (sort_by_len_desc (dict_keys m)) as [|k ks IH]; intro s; [eexists; reflexivity|].
  cbn [replace_keys]; rewrite replace_key_value by exact Hm; apply IH.
Qed.

Lemma X4_no_error_without_backslash_witness :
  exists out, replace_fields (s2l "<t>B1</t>") [(s2l "B1", s2l "a<b & c")]
                (s2l "a.xml") (s2l "18/10/2026") = Some out.
Proof.
  apply X4_no_error_without_backslash.
  intros k v [E|[]]; injection E as <- <-.
  intros c Hc; simpl in Hc; repeat (destruct Hc as [<-|Hc]; [discriminate|]); destruct Hc.
Defined.

(** X5: when no key holds [<] or [>] and no value a backslash, the keyed
    passes keep the markup: the text from each [<] to the next [>] (tag
    names, attributes, closing tags) is, in order, that of the template
    after the fixed tokens; only element text changes. *)
Theorem X5_markup_kept (raw : str) (m : dict) (xml_filename current_date out : str) :
  (forall k, In k (dict_keys m) -> no_angle k) -> values_ok m ->
  replace_fields raw m xml_filename current_date = Some out ->
  markup out = markup (replace_fixed raw xml_filename current_date).
Proof.
  intros Hk Hm; unfold replace_fields, markup.
  assert (Hks : forall k, In k (sort_by_len_desc (dict_keys m)) -> no_angle k)
    by (intros k Hin; apply Hk; apply (Permutation_in _ (sort_by_len_desc_perm _) Hin)).
  generalize (replace_fixed raw xml_filename current_date).
  induction (sort_by_len_desc (dict_keys m)) as [|k ks IH]; intros s H.
  - injection H as <-; reflexivity.
  - cbn [replace_keys] in H; rewrite replace_key_value in H by exact Hm.
    rewrite (IH (fun x Hx => Hks x (or_intror Hx)) _ H).
    destruct (search k s); [|reflexivity].
    apply (sub_go_markup k (sanitize _)); [apply Hks; left; reflexivity | apply no_angle_sanitize].
Qed.

Lemma X5_markup_kept_witness :
  markup (s2l "<t x='B1'>x &lt; y</t><u> </u>")
  = markup (replace_fixed (s2l "<t x='B1'>B10</t><u> b1 </u>") (s2l "a.xml") (s2l "18/10/2026")).
Proof.
  apply (X5_markup_kept (s2l "<t x='B1'>B10</t><u> b1 </u>")
           [(s2l "B1", s2l " "); (s2l "B10", s2l "x < y")] (s2l "a.xml") (s2l "18/10/2026")).
  - intros k Hk; simpl in Hk.
    destruct Hk as [<-|[<-|[]]]; intros c Hc; simpl in Hc;
      repeat (destruct Hc as [<-|Hc]; [split; discriminate|]); destruct Hc.
  - intros k v Hin; simpl in Hin.
    destruct Hin as [E|[E|[]]]; injection E as <- <-; intros c Hc; simpl in Hc;
      repeat (destruct Hc as [<-|Hc]; [discriminate|]); destruct Hc.
  - vm_compute; reflexivity.
Defined.

(** X6: a template whose text after the fixed tokens has no [>] is
    returned as it is, whatever the table (even values that would not
    parse as a replacement template). *)
Theorem X6_no_element_text_untouched (raw : str) (m : dict) (xml_filename current_date : str) :
  (forall c, In c (replace_fixed raw xml_filename current_date) -> c <> ">"%char) ->
  replace_fields raw m xml_filename current_date = Some (replace_fixed raw xml_filename current_date).
Proof.
  unfold replace_fields; generalize (replace_fixed raw xml_filename current_date).
  induction (sort_by_len_desc (dict_keys m)) as [|k ks IH]; intros s H; [reflexivity|].
  cbn [replace_keys]; unfold replace_key; rewrite search_no_open by exact H.
  apply IH; exact H.
Qed.

Lemma X6_no_element_text_untouched_witness :
  replace_fields (s2l "B1 TEMPLATE_NAME") [(s2l "B1", s2l "\d")] (s2l "cfg/Viper.xml")
    (s2l "18/10/2026")
  = Some (replace_fixed (s2l "B1 TEMPLATE_NAME") (s2l "cfg/Viper.xml") (s2l "18/10/2026")).
Proof.
  apply X6_no_element_text_untouched.
  intros c Hc; vm_compute in Hc; repeat (destruct Hc as [<-|Hc]; [discriminate|]); destruct Hc.
Defined.

(** ** Sanitizing as a decoding *)

(** X7: two values give the same placeholder text exactly when they
    decode (by [unescape]) to the same text, and decoding the sanitized
    value gives back that text. *)
Theorem X7_sanitize_same_decoding (v w : str) :
  (sanitize v = sanitize w <-> unescape v = unescape w) /\
  unescape (sanitize v) = unescape v.
Proof.
  unfold sanitize; split; [split|apply unescape_escape].
  - intro H; rewrite <- (unescape_escape (unescape v)), H; apply unescape_escape.
  - intro H; rewrite H; reflexivity.
Qed.

(** ** What the extracted values look like *)

Lemma lstrip_in (s : str) (c : ascii) : In c (lstrip s) -> In c s.
Proof.
  induction s as [|x s IH]; simpl; auto.
  destruct (is_space x); simpl; auto.
Qed.

Lemma strip_in (s : str) (c : ascii) : In c (strip s) -> In c s.
Proof.
  unfold strip, rstrip; intro H; apply in_rev in H; apply lstrip_in in H.
  apply in_rev in H; apply lstrip_in; exact H.
Qed.

Lemma split_on_no_sep (sep : ascii) (s p : str) : In p (split_on sep s) -> ~ In sep p.
Proof.
  revert p; induction s as [|c t IH]; intro p; cbn [split_on].
  - intros [<-|[]] [].
  - destruct (ch_eqb c sep) eqn:E.
    + intros [<-|Hp]; [intros []|auto].
    + destruct (split_on sep t) as [|q ps] eqn:Es.
      * intros [<-|[]] [Hc|[]]; subst; rewrite ch_eqb_refl in E; discriminate.
      * intros [<-|Hp].
        -- intros [Hc|Hq]; [subst; rewrite ch_eqb_refl in E; discriminate|].
           apply (IH q); [left; reflexivity | exact Hq].
        -- apply IH; right; exact Hp.
Qed.

Lemma pair_up_values (l : list str) (k v : str) : In (k, v) (pair_up l) -> v = [] \/ In v l.
Proof.
  remember (length l) as n eqn:Hn; assert (Hl : length l <= n) by lia; clear Hn.
  revert l k v Hl; induction n as [|n IH]; intros l k v Hl.
  - destruct l; [intros []|simpl in Hl; lia].
  - destruct l as [|x [|y r]]; simpl.
    + intros [].
    + intros [E|[]]; inversion E; subst; auto.
    + intros [E|H]; [inversion E; subst; auto|].
      destruct (IH r k v) as [?|?]; [simpl in Hl; lia | exact H | auto | auto].
Qed.

Lemma dict_set_in (d : dict) (k v x y : str) :
  In (x, y) (dict_set d k v) -> In (x, y) d \/ (x, y) = (k, v).
Proof.
  induction d as [|[k' v'] d IH]; simpl.
  - intros [E|[]]; auto.
  - destruct (str_eqb k' k) eqn:E; simpl.
    + apply str_eqb_true in E; subst; intros [E|H]; auto.
    + intros [E'|H]; auto; destruct (IH H); auto.
Qed.

Lemma fold_set_in (l : list (str * str)) (d : dict) (x y : str) :
  In (x, y) (fold_left set_pair l d) -> In (x, y) d \/ In (x, y) l.
Proof.
  revert d; induction l as [|[k v] l IH] using rev_ind; intro d; simpl; auto.
  rewrite fold_left_app; simpl; unfold set_pair at 1; simpl.
  intro H; apply dict_set_in in H as [H|H].
  - destruct (IH d H); auto; right; apply in_or_app; auto.
  - right; apply in_or_app; right; left; symmetry; exact H.
Qed.

Definition clean_token (t : str) : Prop := strip t = t /\ ~ In "|"%char t.

Lemma description_token_clean (raw t : str) : In t (description_tokens raw) -> clean_token t.
Proof.
  unfold description_tokens; intro H; apply in_map_iff in H as (p & <- & Hp).
  split; [apply strip_idem|].
  intro Hc; apply strip_in in Hc; exact (split_on_no_sep _ _ _ Hp Hc).
Qed.

(** X8: in the table extracted from a well-formed document, every value
    is trimmed and holds no [|], and so does every key: a key or value
    never spans two tokens of a description. *)
Theorem X8_extracted_entries_clean (root : element) (k v : str) :
  In (k, v) (extract root) -> clean_token k /\ clean_token v.
Proof.
  rewrite extract_entries; intro H; apply fold_set_in in H as [[]|H].
  unfold document_entries in H; apply in_flat_map in H as (e & _ & He).
  unfold element_entries in He; destruct (desc_attr e) as [d|]; [|destruct He].
  apply filter_In in He as [Hin _]; split.
  - apply pair_up_keys in Hin; apply (description_token_clean d); exact Hin.
  - destruct (pair_up_values _ _ _ Hin) as [->|Hv].
    + split; [reflexivity | intros []].
    + apply (description_token_clean d); exact Hv.
Qed.

Lemma X8_extracted_entries_clean_witness :
  In (s2l "B", []) (extract (Element (Some (s2l " A | 1 |B ")) []))
  /\ clean_token (s2l "B") /\ clean_token [].
Proof.
  assert (Hin : In (s2l "B", []) (extract (Element (Some (s2l " A | 1 |B ")) [])))
    by (vm_compute; auto).
  split; [exact Hin | exact (X8_extracted_entries_clean _ _ _ Hin)].
Defined.

(** ** The output path of [main] and the temporary file of [save_pdf] *)

Lemma split_on_not_nil (sep : ascii) (s : str) : split_on sep s <> [].
Proof.
  destruct s as [|c t]; cbn [split_on]; [discriminate|].
  destruct (ch_eqb c sep); [discriminate|].
  destruct (split_on sep t); discriminate.
Qed.

Lemma split_on_app_sep (sep : ascii) (x y : str) :
  split_on sep (x ++ sep :: y) = split_on sep x ++ split_on sep y.
Proof.
  induction x as [|c x IH]; cbn [app split_on].
  - rewrite ch_eqb_refl; reflexivity.
  - rewrite IH; destruct (ch_eqb c sep); [reflexivity|].
    destruct (split_on sep x) as [|p ps] eqn:E; [exfalso; exact (split_on_not_nil _ _ E)|].
    reflexivity.
Qed.

Lemma split_on_single (sep : ascii) (n : str) : ~ In sep n -> split_on sep n = [n].
Proof.
  induction n as [|c n IH]; intro H; [reflexivity|]; cbn [split_on].
  rewrite IH by (intro Hn; apply H; right; exact Hn).
  destruct (ch_eqb c sep) eqn:E; [|reflexivity].
  apply ch_eqb_true in E; subst; exfalso; apply H; left; reflexivity.
Qed.

Lemma path_parts_in (p x : str) : In x (path_parts p) -> x <> [] /\ ~ In "/"%char x.
Proof.
  unfold path_parts; intro H; apply filter_In in H as [Hin Hk].
  split; [intros ->; discriminate | exact (split_on_no_sep _ _ _ Hin)].
Qed.

Lemma last_nonempty_nil (l : list str) :
  (forall x, In x l -> x <> []) -> (last l [] = [] <-> l = []).
Proof.
  intro H; split; [|intros ->; reflexivity].
  intro E; destruct l as [|y l] using rev_ind; [reflexivity|].
  rewrite last_last in E; exfalso; apply (H y); [apply in_or_app; right; left|]; auto.
Qed.

Definition plain_name (n : str) : Prop := n <> [] /\ ~ In "/"%char n /\ n <> s2l ".".

Lemma path_parts_plain (n : str) : plain_name n -> path_parts n = [n].
Proof.
  intros (H1 & H2 & H3); unfold path_parts; rewrite split_on_single by exact H2.
  cbn [filter]; destruct n as [|c t]; [contradiction|].
  replace (str_eqb (c :: t) (s2l ".")) with false by (symmetry; apply str_eqb_false; exact H3).
  reflexivity.
Qed.

Lemma path_root_app (a b : str) :
  a <> [] -> (forall t, b = "/"%char :: t -> last a " "%char <> "/"%char) ->
  path_root (a ++ b) = path_root a.
Proof.
  intros Ha Hb; destruct a as [|c1 [|c2 [|c3 r]]]; [contradiction| | |reflexivity].
  - destruct b as [|c2 t]; [reflexivity|]; cbn [app path_root].
    destruct (ch_eqb c1 "/") eqn:E1; [|reflexivity].
    destruct (ch_eqb c2 "/") eqn:E2; [|reflexivity].
    apply ch_eqb_true in E1, E2; subst; exfalso; exact (Hb t eq_refl eq_refl).
  - destruct b as [|c3 t]; [reflexivity|]; cbn [app path_root].
    destruct (ch_eqb c1 "/") eqn:E1; [|reflexivity].
    destruct (ch_eqb c2 "/") eqn:E2; [|reflexivity].
    destruct (ch_eqb c3 "/") eqn:E3; [|reflexivity].
    apply ch_eqb_true in E2, E3; subst; exfalso; exact (Hb t eq_refl eq_refl).
Qed.

Lemma path_root_plain (n : str) : ~ In "/"%char n -> path_root n = [].
Proof.
  intro H; destruct n as [|c1 [|c2 r]]; cbn [path_root]; [reflexivity| |];
    (destruct (ch_eqb c1 "/") eqn:E; [apply ch_eqb_true in E; subst; exfalso; apply H; left|]);
    reflexivity.
Qed.

Lemma filter_path_nil (p : str) : path_parts (p ++ ["/"%char]) = path_parts p.
Proof.
  unfold path_parts; rewrite split_on_app_sep, filter_app; cbn [split_on filter].
  rewrite app_nil_r; reflexivity.
Qed.

(** [posixpath.join] with a plain name, parsed: the name is one more part. *)
Lemma posix_join_plain (a n : str) :
  plain_name n ->
  path_root (posix_join a n) = path_root a /\ path_parts (posix_join a n) = path_parts a ++ [n].
Proof.
  intros Hn; pose proof Hn as (H1 & H2 & H3).
  assert (Pn : filter (fun x => negb (is_empty x) && negb (str_eqb x (s2l "."))) [n] = [n]).
  { pose proof (path_parts_plain n Hn) as Pn; unfold path_parts in Pn.
    rewrite split_on_single in Pn by exact H2; exact Pn. }
  assert (Hp : prefixb (s2l "/") n = false).
  { destruct n as [|c t]; [contradiction|]; cbn [prefixb s2l list_ascii_of_string].
    destruct (ch_eqb "/" c) eqn:E; [apply ch_eqb_true in E; subst; exfalso; apply H2; left; auto|].
    reflexivity. }
  unfold posix_join; rewrite Hp; cbn [negb].
  destruct a as [|c a'] eqn:Ea; cbn [is_empty orb].
  - rewrite app_nil_l, path_root_plain, path_parts_plain by assumption; auto.
  - rewrite <- Ea; assert (Ha : a <> []) by (subst; discriminate).
    destruct (ch_eqb (last a " "%char) "/"%char) eqn:El.
    + apply ch_eqb_true in El.
      pose proof (app_removelast_last " "%char Ha) as Ed; rewrite El in Ed.
      split.
      * apply path_root_app; [exact Ha|].
        intros t ->; exfalso; apply H2; left; reflexivity.
      * rewrite Ed, filter_path_nil, <- app_assoc; cbn [app].
        unfold path_parts; rewrite split_on_app_sep, (split_on_single _ n H2), filter_app.
        f_equal; exact Pn.
    + apply ch_eqb_false in El; split.
      * apply path_root_app; [exact Ha | intros t _; exact El].
      * unfold path_parts; cbn [s2l list_ascii_of_string app].
        rewrite split_on_app_sep, (split_on_single _ n H2), filter_app.
        f_equal; exact Pn.
Qed.

Lemma last_dot_go_app (k : nat) (s t : str) (b : option nat) :
  last_dot_go k (s ++ t) b = last_dot_go (k + length s) t (last_dot_go k s b).
Proof.
  revert k b; induction s as [|c s IH]; intros k b; cbn [app last_dot_go length].
  - rewrite Nat.add_0_r; reflexivity.
  - rewrite IH; f_equal; lia.
Qed.

Lemma last_dot_go_spec (k : nat) (s : str) (b : option nat) (i : nat) :
  last_dot_go k s b = Some i ->
  b = Some i \/ (k <= i < k + length s /\ nth (i - k) s " "%char = "."%char).
Proof.
  revert k b; induction s as [|c s IH]; intros k b; cbn [last_dot_go length]; [auto|].
  intro H; destruct (IH _ _ H) as [Hb|[Hi Hn]].
  - destruct (ch_eqb c ".") eqn:E; [|auto].
    injection Hb as <-; apply ch_eqb_true in E; subst; right.
    rewrite Nat.sub_diag; split; [lia | reflexivity].
  - right; split; [lia|].
    replace (i - k) with (S (i - S k)) by lia; exact Hn.
Qed.

Lemma with_suffix_name_pdf (name : str) :
  with_suffix_name name (s2l ".pdf")
  = if is_empty name then None
    else let old := path_suffix name in
         if is_empty old then Some (name ++ s2l ".pdf")
         else Some (firstn (length name - length old) name ++ s2l ".pdf").
Proof. reflexivity. Qed.

(** The stem [with_suffix] keeps: the name, or its part before the
    suffix, never empty. *)
Lemma with_suffix_pdf_stem (name nm : str) :
  with_suffix_name name (s2l ".pdf") = Some nm ->
  exists stem, nm = stem ++ s2l ".pdf" /\ stem <> [] /\ (forall c, In c stem -> In c name).
Proof.
  rewrite with_suffix_name_pdf; destruct (is_empty name) eqn:Ee; [discriminate|].
  assert (Hne : name <> []) by (intros ->; discriminate).
  unfold path_suffix.
  destruct (last_dot_go 0 name None) as [i|] eqn:Ed.
  - destruct ((0 <? i) && (i <? length name - 1)) eqn:Eb; cbn [is_empty]; intro H.
    + apply andb_true_iff in Eb as [Eb1 Eb2]; apply Nat.ltb_lt in Eb1, Eb2.
      assert (Hl : length (skipn i name) = length name - i) by apply length_skipn.
      destruct (skipn i name) as [|d u] eqn:Es; [cbn in Hl; lia|].
      cbn [is_empty] in H; injection H as <-.
      exists (firstn (length name - length (d :: u)) name); split; [reflexivity|].
      rewrite Hl; replace (length name - (length name - i)) with i by lia.
      split; [|intros x Hx; rewrite <- (firstn_skipn i name); apply in_or_app; left; exact Hx].
      destruct name as [|a r]; [contradiction|]; destruct i; [lia|]; discriminate.
    + injection H as <-; exists name; auto.
  - cbn [is_empty]; intro H; injection H as <-; exists name; auto.
Qed.

Lemma basename_go_app_sep (acc x y : str) :
  basename_go acc (x ++ "/"%char :: y) = basename_go [] y.
Proof.
  revert acc; induction x as [|c x IH]; intro acc; cbn [app basename_go].
  - rewrite ch_eqb_refl; reflexivity.
  - destruct (ch_eqb c "/"); apply IH.
Qed.

Lemma basename_go_plain (acc y : str) : ~ In "/"%char y -> basename_go acc y = rev acc ++ y.
Proof.
  revert acc; induction y as [|c y IH]; intros acc H; cbn [basename_go].
  - rewrite app_nil_r; reflexivity.
  - destruct (ch_eqb c "/") eqn:E; [apply ch_eqb_true in E; subst; exfalso; apply H; left; auto|].
    rewrite IH by (intro Hy; apply H; right; exact Hy); cbn [rev]; rewrite <- app_assoc; reflexivity.
Qed.

Lemma path_parts_sep_plain (d0 n : str) :
  plain_name n -> path_parts (d0 ++ "/"%char :: n) = path_parts d0 ++ [n].
Proof.
  intro Hn; pose proof Hn as (_ & H2 & _).
  pose proof (path_parts_plain n Hn) as Pn; unfold path_parts in Pn |- *.
  rewrite (split_on_single _ n H2) in Pn.
  rewrite split_on_app_sep, (split_on_single _ n H2), filter_app, Pn; reflexivity.
Qed.

Lemma path_name_no_slash (p : str) : ~ In "/"%char (path_name p).
Proof.
  unfold path_name; assert (Hl : forall x, In x (path_parts p) -> ~ In "/"%char x)
    by (intros x Hx; exact (proj2 (path_parts_in p x Hx))).
  induction (path_parts p) as [|a l IH]; [intros []|].
  destruct l as [|b l']; [apply Hl; left; reflexivity|].
  apply IH; intros x Hx; apply Hl; right; exact Hx.
Qed.

Lemma nth_pred_last (l : str) (d : ascii) : l <> [] -> nth (length l - 1) l d = last l d.
Proof.
  intro H; rewrite (app_removelast_last d H).
  rewrite last_last, length_app; cbn [length].
  rewrite app_nth2 by lia; replace (length (removelast l) + 1 - 1 - length (removelast l)) with 0
    by lia; reflexivity.
Qed.

(** The name [with_suffix('.pdf')] gives to a plain name is itself plain. *)
Lemma with_suffix_pdf_plain (name nm : str) :
  ~ In "/"%char name -> with_suffix_name name (s2l ".pdf") = Some nm ->
  plain_name nm /\ exists stem, nm = stem ++ s2l ".pdf" /\ stem <> [].
Proof.
  intros Hs H; apply with_suffix_pdf_stem in H as (stem & -> & Hne & Hin).
  split; [|eauto]; split; [|split].
  - destruct stem; [contradiction | discriminate].
  - intro Hc; apply in_app_or in Hc as [Hc|Hc]; [exact (Hs (Hin _ Hc))|].
    cbn in Hc; intuition discriminate.
  - intro E; apply (f_equal (@length ascii)) in E; rewrite length_app in E; cbn in E; lia.
Qed.

(** The name [with_suffix('.pdf')] gives is the [splitext] root plus
    [.pdf] when the name neither starts nor ends with a dot. *)
Lemma with_suffix_pdf_splitext (n : str) :
  n <> [] -> hd " "%char n <> "."%char -> last n " "%char <> "."%char ->
  with_suffix_name n (s2l ".pdf") = Some (splitext_root n ++ s2l ".pdf").
Proof.
  intros Hne Hhd Hlast; rewrite with_suffix_name_pdf.
  destruct (is_empty n) eqn:Ee; [destruct n; [contradiction | discriminate]|].
  unfold path_suffix, splitext_root.
  destruct (last_dot_go 0 n None) as [i|] eqn:Ed; [|reflexivity].
  destruct (last_dot_go_spec _ _ _ _ Ed) as [[=]|[Hi Hn]].
  rewrite Nat.sub_0_r in Hn; cbn [Nat.add] in Hi.
  assert (Hi0 : i <> 0) by (intros ->; destruct n; [contradiction|]; cbn in Hn, Hhd; contradiction).
  assert (Hi1 : i <> length n - 1) by (intros ->; rewrite nth_pred_last in Hn by exact Hne; contradiction).
  replace ((0 <? i) && (i <? length n - 1)) with true
    by (symmetry; apply andb_true_iff; split; apply Nat.ltb_lt; lia).
  assert (Hl : length (skipn i n) = length n - i) by apply length_skipn.
  destruct (skipn i n) as [|d u] eqn:Es; [cbn in Hl; lia|]; cbn [is_empty].
  rewrite Hl; replace (length n - (length n - i)) with i by lia.
  destruct n as [|c t]; [contradiction|]; destruct i as [|i]; [contradiction|]; cbn [firstn existsb].
  destruct (ch_eqb c ".") eqn:Ec; [apply ch_eqb_true in Ec; subst; cbn in Hhd; contradiction|].
  reflexivity.
Qed.

Lemma path_root_dot : path_root (s2l ".") = [].
Proof. reflexivity. Qed.

Lemma path_parts_dot : path_parts (s2l ".") = [].
Proof. reflexivity. Qed.

Lemma join_snoc (sep : str) (P : list str) (a : str) :
  join sep (P ++ [a]) = match P with [] => [] | _ => join sep P ++ sep end ++ a.
Proof.
  induction P as [|p P IH]; [reflexivity|].
  cbn [app]; destruct P as [|q P'].
  { cbn [app]; change (join sep [p; a]) with (p ++ sep ++ a); change (join sep [p]) with p.
    rewrite <- app_assoc; reflexivity. }
  change (join sep (p :: (q :: P') ++ [a])) with (p ++ sep ++ join sep ((q :: P') ++ [a])).
  rewrite IH; change (join sep (p :: q :: P')) with (p ++ sep ++ join sep (q :: P')).
  rewrite <- !app_assoc; reflexivity.
Qed.

Lemma path_str_snoc (root : str) (P : list str) (a : str) :
  a <> [] ->
  path_str root (P ++ [a]) = root ++ match P with [] => [] | _ => join (s2l "/") P ++ s2l "/" end ++ a.
Proof.
  intro Ha; unfold path_str; rewrite join_snoc.
  destruct (root ++ _ ++ a) as [|x y] eqn:E; [|reflexivity].
  apply app_eq_nil in E as [_ E]; apply app_eq_nil in E as [_ E]; contradiction.
Qed.

Lemma with_suffix_name_temp_of_pdf (stem : str) :
  stem <> [] ->
  with_suffix_name (stem ++ s2l ".pdf") (s2l ".temp.svg") = Some (stem ++ s2l ".temp.svg").
Proof.
  intro Hne.
  change (with_suffix_name (stem ++ s2l ".pdf") (s2l ".temp.svg"))
    with (if is_empty (stem ++ s2l ".pdf") then None
          else let old := path_suffix (stem ++ s2l ".pdf") in
               if is_empty old then Some ((stem ++ s2l ".pdf") ++ s2l ".temp.svg")
               else Some (firstn (length (stem ++ s2l ".pdf") - length old) (stem ++ s2l ".pdf")
                          ++ s2l ".temp.svg")).
  replace (is_empty (stem ++ s2l ".pdf")) with false by (destruct stem; [contradiction|reflexivity]).
  assert (Hsuf : path_suffix (stem ++ s2l ".pdf") = s2l ".pdf").
  { unfold path_suffix; rewrite last_dot_go_app.
    change (last_dot_go (0 + length stem) (s2l ".pdf") (last_dot_go 0 stem None))
      with (Some (0 + length stem)).
    rewrite length_app; cbn [length s2l list_ascii_of_string].
    replace ((0 <? 0 + length stem) && (0 + length stem <? length stem + 4 - 1)) with true
      by (assert (0 < length stem) by (destruct stem; [contradiction | cbn; lia]);
          symmetry; apply andb_true_iff; split; apply Nat.ltb_lt; lia).
    rewrite Nat.add_0_l, skipn_app, skipn_all, Nat.sub_diag; reflexivity. }
  rewrite Hsuf; cbn [is_empty s2l list_ascii_of_string length].
  rewrite length_app; cbn [length s2l list_ascii_of_string].
  replace (length stem + 4 - 4) with (length stem) by lia.
  rewrite firstn_app, Nat.sub_diag, firstn_all; cbn [firstn]; rewrite app_nil_r; reflexivity.
Qed.

(** X9: computing the output path raises [ValueError] ([with_suffix] on
    an empty name), before any [try], exactly when the XML path has no
    name: no part other than [/] separators and [.] (e.g. [""], [.], [/],
    [./]). *)
Theorem X9_output_path_error_iff_no_name (argv : list str) :
  output_file argv = None <-> path_parts (nth 1 argv []) = [].
Proof.
  unfold output_file, output_path, path_name; cbv zeta.
  rewrite with_suffix_name_pdf.
  rewrite <- (last_nonempty_nil (path_parts (nth 1 argv []))
                (fun y Hy => proj1 (path_parts_in _ _ Hy))).
  destruct (last (path_parts (nth 1 argv [])) []) as [|c t]; cbn [is_empty].
  - split; auto.
  - destruct (is_empty (path_suffix (c :: t))); split; intro H; discriminate H.
Qed.

(** X10: with two arguments the PDF goes to the working directory under
    the TEMPLATE_NAME of the XML path plus [.pdf], when the XML file name
    (after its last [/]) is non-empty and neither starts nor ends with a
    dot. *)
Theorem X10_two_args_pdf_named_like_template (prog d n svg : str) :
  (d = [] \/ exists d0, d = d0 ++ ["/"%char]) ->
  n <> [] -> ~ In "/"%char n -> hd " "%char n <> "."%char -> last n " "%char <> "."%char ->
  output_file [prog; d ++ n; svg] = Some (template_name_of (d ++ n) ++ s2l ".pdf").
Proof.
  intros Hd Hne Hs Hhd Hlast.
  assert (Hn : plain_name n).
  { split; [exact Hne | split; [exact Hs|]].
    intros ->; cbn in Hhd; contradiction. }
  assert (Hname : path_name (d ++ n) = n /\ template_name_of (d ++ n) = splitext_root n).
  { unfold path_name, template_name_of, basename.
    destruct Hd as [->|[d0 ->]].
    - rewrite app_nil_l, path_parts_plain, basename_go_plain by assumption; auto.
    - rewrite <- app_assoc; cbn [app].
      rewrite path_parts_sep_plain, last_last, basename_go_app_sep, basename_go_plain by assumption.
      auto. }
  destruct Hname as [Hpn Htn].
  unfold output_file, output_path; cbv zeta; cbn [nth length Nat.eqb].
  rewrite Hpn, Htn, with_suffix_pdf_splitext by assumption.
  destruct (with_suffix_pdf_plain n (splitext_root n ++ s2l ".pdf") Hs
              (with_suffix_pdf_splitext n Hne Hhd Hlast)) as [Hp _].
  destruct (posix_join_plain (s2l ".") _ Hp) as [-> ->].
  rewrite path_root_dot, path_parts_dot, app_nil_l.
  change [splitext_root n ++ s2l ".pdf"] with ([] ++ [splitext_root n ++ s2l ".pdf"]).
  rewrite path_str_snoc by (destruct Hp; assumption); reflexivity.
Qed.

Lemma X10_two_args_pdf_named_like_template_witness :
  output_file [s2l "diagram_generator.py"; s2l "cfg/F-16.v2.xml"; s2l "t.svg"]
  = Some (template_name_of (s2l "cfg/F-16.v2.xml") ++ s2l ".pdf").
Proof.
  apply (X10_two_args_pdf_named_like_template (s2l "diagram_generator.py") (s2l "cfg/")
           (s2l "F-16.v2.xml") (s2l "t.svg")).
  - right; exists (s2l "cfg"); reflexivity.
  - discriminate.
  - intro H; vm_compute in H; repeat (destruct H as [H|H]; [discriminate H|]); exact H.
  - vm_compute; discriminate.
  - vm_compute; discriminate.
Defined.

(** X11: when the output path is computed, the PDF goes in the output
    directory (as [pathlib] normalises it) under a non-empty stem plus
    [.pdf], and the temporary SVG of [save_pdf] goes next to it under the
    same stem plus [.temp.svg]; so it never overwrites the PDF's path. *)
Theorem X11_temp_svg_beside_pdf (argv : list str) (root : str) (parts : list str) :
  output_path argv = Some (root, parts) ->
  let output_dir := if Nat.eqb (length argv) 4 then nth 3 argv [] else s2l "." in
  let pre := path_root output_dir
             ++ match path_parts output_dir with [] => [] | P => join (s2l "/") P ++ s2l "/" end in
  exists stem, stem <> [] /\
    path_str root parts = pre ++ stem ++ s2l ".pdf" /\
    temp_svg_path root parts = Some (pre ++ stem ++ s2l ".temp.svg").
Proof.
  unfold output_path; cbv zeta.
  set (dir := if Nat.eqb (length argv) 4 then nth 3 argv [] else s2l ".").
  destruct (with_suffix_name (path_name (nth 1 argv [])) (s2l ".pdf")) as [nm|] eqn:Ew;
    [|intro H; discriminate H].
  intro H; injection H as <- <-.
  destruct (with_suffix_pdf_plain _ _ (path_name_no_slash _) Ew) as [Hp (stem & -> & Hne)].
  destruct (posix_join_plain dir _ Hp) as [-> ->].
  exists stem; split; [exact Hne|]; split.
  - rewrite path_str_snoc by (destruct Hp; assumption).
    rewrite <- app_assoc; destruct (path_parts dir); reflexivity.
  - unfold temp_svg_path; rewrite last_last, removelast_last, with_suffix_name_temp_of_pdf by exact Hne.
    rewrite path_str_snoc by (destruct stem; [contradiction | discriminate]).
    rewrite <- app_assoc; destruct (path_parts dir); reflexivity.
Qed.

Lemma X11_temp_svg_beside_pdf_witness :
  path_str (path_root (s2l "out/")) (path_parts (s2l "out/") ++ [s2l "F-16.v2.pdf"])
  = s2l "out/F-16.v2.pdf" /\
  temp_svg_path (path_root (s2l "out/")) (path_parts (s2l "out/") ++ [s2l "F-16.v2.pdf"])
  = Some (s2l "out/F-16.v2.temp.svg").
Proof.
  destruct (X11_temp_svg_beside_pdf [s2l "p"; s2l "cfg/F-16.v2.xml"; s2l "t.svg"; s2l "out/"]
              (path_root (s2l "out/")) (path_parts (s2l "out/") ++ [s2l "F-16.v2.pdf"])
              ltac:(vm_compute; reflexivity)) as (stem & _ & H1 & H2).
  rewrite H1, H2; vm_compute in H1.
  assert (Hs : stem = s2l "F-16.v2").
  { apply (app_inv_head (s2l "out/")), (app_inv_tail (s2l ".pdf")); exact (eq_sym H1). }
  subst; split; reflexivity.
Defined.
